(** * ParkingFeeCalculator: a shallow embedding of the CipherPark contract

    The contract [ParkingFeeCalculator] (Solidity, FHEVM) computes a parking
    fee over an encrypted number of minutes.  This file embeds the contract
    in Rocq: storage and the confidential-computation substrate are an
    explicit state, every external function is a computation in a
    state-and-revert monad, and the properties of the specification are
    proved about these definitions. *)

From Stdlib Require Import ZArith Lia List QArith Qround String.
From Equations Require Import Equations.
From stdpp Require Import gmap list.

Open Scope Z_scope.

(** ** Machine integers *)

Module UInt.

Definition max (w : Z) : Z := 2 ^ w - 1.

Definition In (w : Z) (z : Z) : Prop := 0 <= z <= max w.

Definition wrap (w : Z) (z : Z) : Z := z mod 2 ^ w.

(** [a << k] on a [w]-bit word: bits shifted past the top are dropped. *)
Definition shl (w : Z) (a k : Z) : Z := wrap w (Z.shiftl a k).

Definition shr (a k : Z) : Z := Z.shiftr a k.

End UInt.

(** ** State *)

Abbreviation address := Z (only parsing).
Abbreviation bytes32 := Z (only parsing).
Abbreviation euint64 := Z (only parsing).
Abbreviation ebool := Z (only parsing).
Abbreviation externalEuint64 := Z (only parsing).

(** Operations of the FHE executor; each ciphertext remembers the
    operation that produced it, so the list of ciphertexts is also the
    publicly observable trace of executor calls. *)
Inductive FheOp : Set :=
| OpVerifyInput | OpTrivialEncrypt | OpAdd | OpSub | OpMul | OpGt | OpSelect.

#[global] Instance FheOp_eq_dec : EqDecision FheOp.
Proof. solve_decision. Defined.

Record Ciphertext : Set := mkCiphertext { made_by : FheOp; clear : Z }.

Inductive Event : Set :=
| Quoted (user : address) (feeHandle : bytes32).

Record World : Type := mkWorld {
  owner : address;
  pricePerBlock : Z;
  maxBlocks : Z;
  _lastFee : gmap Z Z;
  ciphertexts : list Ciphertext;
  acl : gset (Z * Z);
  events : list Event
}.

Definition BLOCK_MINUTES : Z := 30.

Inductive Error : Set :=
| Not_owner
| price_0
| maxBlocks_0
| Zero_owner
| Empty_proof
| Invalid_input_proof
| Unknown_handle
| Panic_overflow.

(** The error taxonomy of the specification. *)
Inductive ErrorClass : Set :=
| NotAuthorizedError | InvalidPolicyError | InvalidProofError.

Definition classify (e : Error) : option ErrorClass :=
  match e with
  | Not_owner => Some NotAuthorizedError
  | price_0 | maxBlocks_0 | Zero_owner => Some InvalidPolicyError
  | Empty_proof | Invalid_input_proof => Some InvalidProofError
  | Unknown_handle | Panic_overflow => None
  end.

(** ** The state-and-revert monad

    A computation either finishes with a value and a new state, or
    reverts.  A revert keeps the state reached when it was raised, so that
    "nothing was written before the failure" can be stated; the rollback
    of the ledger is [external_call] below. *)

Inductive outcome (A : Type) : Type :=
| Done (a : A) (w : World)
| Reverted (e : Error) (w : World).
Arguments Done {A} a w.
Arguments Reverted {A} e w.

Definition M (A : Type) : Type := World -> outcome A.

#[global] Instance M_ret : MRet M := fun A a w => Done a w.

#[global] Instance M_bind : MBind M := fun A B f m w =>
  match m w with
  | Done a w' => f a w'
  | Reverted e w' => Reverted e w'
  end.

Definition revert {A : Type} (e : Error) : M A := fun w => Reverted e w.

Definition require (c : bool) (e : Error) : M unit :=
  if c then mret tt else revert e.

Definition gets {A : Type} (f : World -> A) : M A := fun w => Done (f w) w.

Definition modify (f : World -> World) : M unit := fun w => Done tt (f w).

(** Checked arithmetic of Solidity 0.8 on [w]-bit words. *)
Definition checked (w : Z) (z : Z) : M Z :=
  if decide (0 <= z <= UInt.max w) then mret z else revert Panic_overflow.

Inductive receipt (A : Type) : Type :=
| Success (a : A)
| Failure (e : Error).
Arguments Success {A} a.
Arguments Failure {A} e.

(** An external call is atomic: a revert restores the state of entry. *)
Definition external_call {A : Type} (m : M A) (w : World) : World * receipt A :=
  match m w with
  | Done a w' => (w', Success a)
  | Reverted e _ => (w, Failure e)
  end.

(** ** Field updates *)

Definition set_owner (n : address) (w : World) : World :=
  mkWorld n (pricePerBlock w) (maxBlocks w) (_lastFee w) (ciphertexts w) (acl w) (events w).

Definition set_pricePerBlock (p : Z) (w : World) : World :=
  mkWorld (owner w) p (maxBlocks w) (_lastFee w) (ciphertexts w) (acl w) (events w).

Definition set_maxBlocks (m : Z) (w : World) : World :=
  mkWorld (owner w) (pricePerBlock w) m (_lastFee w) (ciphertexts w) (acl w) (events w).

Definition set__lastFee (who : address) (h : euint64) (w : World) : World :=
  mkWorld (owner w) (pricePerBlock w) (maxBlocks w) (<[who := h]> (_lastFee w))
          (ciphertexts w) (acl w) (events w).

Definition push_ciphertexts (l : list Ciphertext) (w : World) : World :=
  mkWorld (owner w) (pricePerBlock w) (maxBlocks w) (_lastFee w)
          (ciphertexts w ++ l) (acl w) (events w).

Definition grant (h : euint64) (who : address) (w : World) : World :=
  mkWorld (owner w) (pricePerBlock w) (maxBlocks w) (_lastFee w)
          (ciphertexts w) ({[ (h, who) ]} ∪ acl w) (events w).

Definition emit (e : Event) (w : World) : World :=
  mkWorld (owner w) (pricePerBlock w) (maxBlocks w) (_lastFee w)
          (ciphertexts w) (acl w) (events w ++ [e]).

(** ** The confidential-computation substrate

    The contract imports the FHEVM library ([FHE.sol]) and runs on its
    coprocessor; neither is part of this repository.  Their model below
    follows the contract of the primitives in the specification: an
    [euint64] is an opaque handle, the coprocessor keeps the ciphertext
    behind every handle it has produced, and every primitive records its
    result and returns a handle to it. *)

(** Modelled from the spec: the handle that the next ciphertext receives.
    Handle [0] is the uninitialised [euint64]; handle [h >= 1] names the
    ciphertext at index [h - 1] of the store.  The executor derives a
    handle from the operation and its operands, so the same operation on
    the same operands is given the same handle again; numbering handles by
    production keeps the value behind every handle and the trace of
    operations, and abstracts from which handles coincide.  The statements
    on custody and on access grants are therefore phrased without
    assuming that two handles differ. *)
Definition next_handle (w : World) : Z := Z.of_nat (length (ciphertexts w)) + 1.

(** Modelled from the spec: the ciphertext that a handle refers to. *)
Definition ciphertext_at (w : World) (h : Z) : option Ciphertext :=
  if decide (1 <= h) then ciphertexts w !! Z.to_nat (h - 1) else None.

(** Modelled from the spec: what the holder of the key reads behind a
    handle.  The contract never calls it. *)
Definition decrypt (w : World) (h : Z) : option Z := clear <$> ciphertext_at w h.

(** Modelled from the spec: the coprocessor records the result of
    operation [o] and returns its handle.  The store is a log: a repeated
    operation is recorded again, under the next number. *)
Definition fresh (o : FheOp) (v : Z) : M Z :=
  fun w => Done (next_handle w) (push_ciphertexts [mkCiphertext o v] w).

(** Modelled from the spec: the coprocessor resolves an operand; a handle
    it never produced is refused. *)
Definition operand (h : Z) : M Z :=
  fun w => match decrypt w h with
           | Some v => Done v w
           | None => Reverted Unknown_handle w
           end.

Module FHE.

(** Modelled from the spec: [constant(plaintext)], lifting a plaintext. *)
Definition asEuint64 (v : Z) : M euint64 := fresh OpTrivialEncrypt v.

(** Modelled from the spec: [add(a, b)], addition modulo 2^64. *)
Definition add (a b : euint64) : M euint64 :=
  va ← operand a; vb ← operand b; fresh OpAdd (UInt.wrap 64 (va + vb)).

(** Modelled from the spec: [sub(a, b)]; a negative difference wraps
    modulo 2^64. *)
Definition sub (a b : euint64) : M euint64 :=
  va ← operand a; vb ← operand b; fresh OpSub (UInt.wrap 64 (va - vb)).

(** Modelled from the spec: [mul(a, b)], multiplication modulo 2^64. *)
Definition mul (a b : euint64) : M euint64 :=
  va ← operand a; vb ← operand b; fresh OpMul (UInt.wrap 64 (va * vb)).

(** Modelled from the spec: [gt(a, b)], strict greater-than; the
    encrypted boolean is 1 or 0. *)
Definition gt (a b : euint64) : M ebool :=
  va ← operand a; vb ← operand b; fresh OpGt (if decide (vb < va) then 1 else 0).

(** Modelled from the spec: [select(cond, ifTrue, ifFalse)]; both
    branches are operands, one is kept. *)
Definition select (c : ebool) (a b : euint64) : M euint64 :=
  vc ← operand c; va ← operand a; vb ← operand b;
  fresh OpSelect (if decide (vc = 0) then vb else va).

(** Modelled from the spec: the handle of a ciphertext, as [bytes32]. *)
Definition toBytes32 (h : euint64) : bytes32 := h.

(** Modelled from the spec: the access grant [(ciphertext, identity)]. *)
Definition allow (h : euint64) (who : address) : M unit := modify (grant h who).

End FHE.

Section Contract.

(** The address at which the contract is deployed. *)
Variable this : address.

(** Modelled from the spec: the input verifier of the substrate, which
    [FHE.fromExternal] consults.  [inputVerifier user ext proof] is the
    plaintext carried by the external input [ext] when [proof] attests it
    for this contract and [user], and [None] otherwise. *)
Variable inputVerifier : address -> externalEuint64 -> list Byte.byte -> option Z.

(** Modelled from the spec: [ingest(external, proof)], which fails when the
    attestation does not validate. *)
Definition FHE_fromExternal (sender : address) (ext : externalEuint64)
           (proof : list Byte.byte) : M euint64 :=
  match inputVerifier sender ext proof with
  | Some v => fresh OpVerifyInput v
  | None => revert Invalid_input_proof
  end.

(** Modelled from the spec: the grant to the computing authority, the
    contract itself. *)
Definition FHE_allowThis (h : euint64) : M unit := FHE.allow h this.

(** *** Ownership and pricing parameters *)

Definition onlyOwner (sender : address) : M unit :=
  o ← gets owner; require (bool_decide (sender = o)) Not_owner.

Definition constructor (sender : address) (pricePerBlock_ maxBlocks_ : Z) : M unit :=
  require (bool_decide (0 < pricePerBlock_)) price_0;;
  require (bool_decide (0 < maxBlocks_)) maxBlocks_0;;
  modify (set_owner sender);;
  modify (set_pricePerBlock pricePerBlock_);;
  modify (set_maxBlocks maxBlocks_).

Definition transferOwnership (sender : address) (n : address) : M unit :=
  onlyOwner sender;;
  require (bool_decide (n ≠ 0)) Zero_owner;;
  modify (set_owner n).

Definition setPricePerBlock (sender : address) (newPrice : Z) : M unit :=
  onlyOwner sender;;
  require (bool_decide (0 < newPrice)) price_0;;
  modify (set_pricePerBlock newPrice).

Definition setMaxBlocks (sender : address) (newMax : Z) : M unit :=
  onlyOwner sender;;
  require (bool_decide (0 < newMax)) maxBlocks_0;;
  modify (set_maxBlocks newMax).

(** *** Reading a result handle *)

(** [_lastFee[who]]: a Solidity mapping reads the zero value at a key
    that was never written. *)
Definition read__lastFee (who : address) (w : World) : euint64 :=
  default 0 (_lastFee w !! who).

Definition getMyFeeHandle (sender : address) : M bytes32 :=
  h ← gets (read__lastFee sender); mret (FHE.toBytes32 h).

(** *** Position of the most significant bit *)

(** The [while (x > 1) { x >>= 1; ++p; }] loop of [_msbPos]; the
    increment of the [uint8] counter is unchecked. *)
Equations? _msbPos_loop (x p : Z) : Z by wf (Z.to_nat x) lt :=
  _msbPos_loop x p with decide (1 < x) => {
    | left _ := _msbPos_loop (UInt.shr x 1) (UInt.wrap 8 (p + 1));
    | right _ := p }.
Proof.
  unfold UInt.shr. rewrite Z.shiftr_div_pow2 by lia.
  change (2 ^ 1) with 2. apply Z2Nat.inj_lt; [ | lia | ].
  - apply Z.div_pos; lia.
  - apply Z.div_lt; lia.
Qed.

Definition _msbPos (x : Z) : Z := _msbPos_loop x 0.

(** *** The fee computation *)

(** The ladder [for (uint8 ki = kMax + 1; ki > 0; ) { --ki; k = ki; ... }]:
    the recursion is on the loop counter [ki] itself. *)
Fixpoint ladder (ki : nat) (rem blocks : euint64) : M (euint64 * euint64) :=
  match ki with
  | O => mret (rem, blocks)
  | S ki' =>
      let k := Z.of_nat ki' in
      chunk ← checked 64 (BLOCK_MINUTES * UInt.shl 64 1 k);
      chunk_1 ← checked 64 (chunk - 1);
      threshold ← FHE.asEuint64 chunk_1;
      ge ← FHE.gt rem threshold;
      echunk ← FHE.asEuint64 chunk;
      remMinus ← FHE.sub rem echunk;
      rem ← FHE.select ge remMinus rem;
      addBy ← FHE.asEuint64 (UInt.shl 64 1 k);
      blocksPlus ← FHE.add blocks addBy;
      blocks ← FHE.select ge blocksPlus blocks;
      ladder ki' rem blocks
  end.

(** Step 2 of [quote] (lines 100-129): the block count before the cap. *)
Definition quote_blocks (rem : euint64) : M euint64 :=
  blocks ← FHE.asEuint64 0;
  mb ← gets maxBlocks;
  let kMax := _msbPos mb in
  ki ← checked 8 (kMax + 1);
  '(rem, blocks) ← ladder (Z.to_nat ki) rem blocks;
  zero ← FHE.asEuint64 0;
  hasRem ← FHE.gt rem zero;
  one ← FHE.asEuint64 1;
  blocksPlus ← FHE.add blocks one;
  FHE.select hasRem blocksPlus blocks.

(** Step 3 of [quote] (lines 131-133): the cap. *)
Definition quote_cap (blocks : euint64) : M euint64 :=
  mb ← gets maxBlocks;
  cap ← FHE.asEuint64 mb;
  tooMany ← FHE.gt blocks cap;
  mb ← gets maxBlocks;
  cap ← FHE.asEuint64 mb;
  FHE.select tooMany cap blocks.

(** Step 4 of [quote] (line 136): the price. *)
Definition quote_fee (blocks : euint64) : M euint64 :=
  p ← gets pricePerBlock;
  price ← FHE.asEuint64 p;
  FHE.mul blocks price.

(** Steps 5 and 6 of [quote] (lines 139-149): custody, access grants,
    notification. *)
Definition quote_store (sender : address) (fee : euint64) : M bytes32 :=
  modify (set__lastFee sender fee);;
  h ← gets (read__lastFee sender);
  FHE_allowThis h;;
  h ← gets (read__lastFee sender);
  FHE.allow h sender;;
  h ← gets (read__lastFee sender);
  let feeHandle := FHE.toBytes32 h in
  modify (emit (Quoted sender feeHandle));;
  mret feeHandle.

(** [quote] up to and including the cap (lines 92-133): the proof check,
    step 1 (ingest), step 2 and step 3. *)
Definition quote_capped (sender : address) (minutesExt : externalEuint64)
           (proof : list Byte.byte) : M euint64 :=
  require (bool_decide (0 < Z.of_nat (length proof))) Empty_proof;;
  rem ← FHE_fromExternal sender minutesExt proof;
  blocks ← quote_blocks rem;
  quote_cap blocks.

(** [quote] (lines 91-150). *)
Definition quote (sender : address) (minutesExt : externalEuint64)
           (proof : list Byte.byte) : M bytes32 :=
  blocks ← quote_capped sender minutesExt proof;
  fee ← quote_fee blocks;
  quote_store sender fee.

End Contract.

(** Storage before the constructor runs: every slot is zero. *)
Definition genesis : World := mkWorld 0 0 0 ∅ [] ∅ [].

(** ** Deployment and the ledger's step relation *)

Inductive Call : Type :=
| Call_transferOwnership (n : address)
| Call_setPricePerBlock (newPrice : Z)
| Call_setMaxBlocks (newMax : Z)
| Call_getMyFeeHandle
| Call_quote (minutesExt : externalEuint64) (proof : list Byte.byte).

(** Arguments as the ABI decoder lets them through. *)
Definition well_typed (c : Call) : Prop :=
  match c with
  | Call_transferOwnership n => UInt.In 160 n
  | Call_setPricePerBlock p => UInt.In 64 p
  | Call_setMaxBlocks m => UInt.In 16 m
  | Call_getMyFeeHandle => True
  | Call_quote ext _ => UInt.In 256 ext
  end.

Section Ledger.

Variable this : address.
Variable inputVerifier : address -> externalEuint64 -> list Byte.byte -> option Z.

Definition deploy (sender : address) (pricePerBlock_ maxBlocks_ : Z) : World * receipt unit :=
  external_call (constructor sender pricePerBlock_ maxBlocks_) genesis.

Definition step (sender : address) (c : Call) (w : World) : World :=
  match c with
  | Call_transferOwnership n => fst (external_call (transferOwnership sender n) w)
  | Call_setPricePerBlock p => fst (external_call (setPricePerBlock sender p) w)
  | Call_setMaxBlocks m => fst (external_call (setMaxBlocks sender m) w)
  | Call_getMyFeeHandle => fst (external_call (getMyFeeHandle sender) w)
  | Call_quote ext proof => fst (external_call (quote this inputVerifier sender ext proof) w)
  end.

Fixpoint run (txs : list (address * Call)) (w : World) : World :=
  match txs with
  | [] => w
  | (sender, c) :: rest => run rest (step sender c w)
  end.

Inductive reachable : World -> Prop :=
| reachable_deploy sender p m w :
    UInt.In 64 p -> UInt.In 16 m ->
    deploy sender p m = (w, Success tt) ->
    reachable w
| reachable_step w sender c :
    reachable w -> well_typed c ->
    reachable (step sender c w).

(** Whether [who] completes a [quote] somewhere along [txs] run from [w]. *)
Fixpoint has_quoted (who : address) (txs : list (address * Call)) (w : World) : bool :=
  match txs with
  | [] => false
  | (sender, c) :: rest =>
      match c with
      | Call_quote ext proof =>
          match quote this inputVerifier sender ext proof w with
          | Done _ _ => bool_decide (sender = who)
          | Reverted _ _ => false
          end
      | _ => false
      end || has_quoted who rest (step sender c w)
  end.

(** The state in which a successful [quote] by [sender] leaves [w], when
    the computation appended [l] and stored the fee behind [h]. *)
Definition quoted (sender : address) (h : Z) (l : list Ciphertext) (w : World) : World :=
  emit (Quoted sender h)
    (grant h sender (grant h this (set__lastFee sender h (push_ciphertexts l w)))).

(** The blocks held after the cap, as the key owner would read them. *)
Definition capped_blocks_of (sender : address) (minutesExt : externalEuint64)
           (proof : list Byte.byte) (w : World) : option Z :=
  match quote_capped inputVerifier sender minutesExt proof w with
  | Done h w' => decrypt w' h
  | Reverted _ _ => None
  end.

(** The fee stored for [sender] by a call to [quote], as the key owner
    would read it. *)
Definition stored_fee_of (sender : address) (minutesExt : externalEuint64)
           (proof : list Byte.byte) (w : World) : option Z :=
  match quote this inputVerifier sender minutesExt proof w with
  | Done h w' => if decide (h = read__lastFee sender w') then decrypt w' h else None
  | Reverted _ _ => None
  end.

End Ledger.

(** ** The invariant of reachable states *)

(** The pricing parameters are positive and fit their types, and every
    stored handle names a ciphertext of the store. *)
Record Inv (w : World) : Prop := mkInv {
  inv_price : 1 <= pricePerBlock w <= UInt.max 64;
  inv_maxBlocks : 1 <= maxBlocks w <= UInt.max 16;
  inv_custody : forall (a : address) (h : Z),
      _lastFee w !! a = Some h -> 1 <= h < next_handle w
}.

(** ** Plaintext reading of the arithmetic *)

Definition ceil_div (a b : Z) : Z := (a + b - 1) / b.

(** What the ladder leaves behind the handles [rem] and [blocks]. *)
Fixpoint ladder_clear (ki : nat) (r b : Z) : Z * Z :=
  match ki with
  | O => (r, b)
  | S ki' =>
      let k := Z.of_nat ki' in
      let chunk := BLOCK_MINUTES * UInt.shl 64 1 k in
      let ge := if decide (chunk - 1 < r) then 1 else 0 in
      ladder_clear ki'
        (if decide (ge = 0) then r else UInt.wrap 64 (r - chunk))
        (if decide (ge = 0) then b else UInt.wrap 64 (b + UInt.shl 64 1 k))
  end.

Definition blocks_clear (mb : Z) (r : Z) : Z :=
  let rb := ladder_clear (Z.to_nat (_msbPos mb + 1)) r 0 in
  let hasRem := if decide (0 < fst rb) then 1 else 0 in
  if decide (hasRem = 0) then snd rb else UInt.wrap 64 (snd rb + 1).

Definition capped_clear (mb : Z) (r : Z) : Z :=
  let b := blocks_clear mb r in
  let tooMany := if decide (mb < b) then 1 else 0 in
  if decide (tooMany = 0) then b else mb.

(** ** The executor calls made by [quote] *)

Definition round_ops : list FheOp :=
  [OpTrivialEncrypt; OpGt; OpTrivialEncrypt; OpSub; OpSelect;
   OpTrivialEncrypt; OpAdd; OpSelect].

Fixpoint ladder_ops (ki : nat) : list FheOp :=
  match ki with
  | O => []
  | S ki' => round_ops ++ ladder_ops ki'
  end.

Definition blocks_ops (ki : nat) : list FheOp :=
  [OpTrivialEncrypt] ++ ladder_ops ki ++ [OpTrivialEncrypt; OpGt; OpTrivialEncrypt; OpAdd; OpSelect].

Definition cap_ops : list FheOp :=
  [OpTrivialEncrypt; OpGt; OpTrivialEncrypt; OpSelect].

Definition fee_ops : list FheOp := [OpTrivialEncrypt; OpMul].

Definition quote_ops (ki : nat) : list FheOp :=
  [OpVerifyInput] ++ blocks_ops ki ++ cap_ops ++ fee_ops.

(** Ladder rounds in a trace: each round issues exactly one [FHE.sub]. *)
Definition rounds_in (ops : list FheOp) : nat :=
  length (filter (fun o => o = OpSub) ops).

(** The ciphertexts that a run appended to the store. *)
Definition appended (w w' : World) : list Ciphertext :=
  drop (length (ciphertexts w)) (ciphertexts w').

(** ** Scenarios *)

Module Scenario.

Definition this : address := 1000.
Definition alice : address := 5.
Definition bob : address := 6.
Definition authority : address := 7.

(** An input verifier that attests every non-empty proof; the external
    handle is read as the plaintext it carries. *)
Definition verifier : address -> externalEuint64 -> list Byte.byte -> option Z :=
  fun _ ext proof => match proof with [] => None | _ => Some ext end.

Definition proof : list Byte.byte := [Byte.x01].

(** The deployment of [deploy.ts]: 50 cents per block, 96 blocks. *)
Definition sepolia : World := fst (deploy authority 50 96).

(** A deployment whose price is a large [uint64]. *)
Definition pricey : World := fst (deploy authority (2 ^ 63) 96).

End Scenario.

(** ** Further observations of the contract *)

Section Observations.

Variable inputVerifier : address -> externalEuint64 -> list Byte.byte -> option Z.

(** [quote] up to the ceiling adjustment (lines 92-129), before the cap. *)
Definition quote_uncapped (sender : address) (minutesExt : externalEuint64)
           (proof : list Byte.byte) : M euint64 :=
  require (bool_decide (0 < Z.of_nat (length proof))) Empty_proof;;
  rem ← FHE_fromExternal inputVerifier sender minutesExt proof;
  quote_blocks rem.

(** The blocks held before the cap, as the key owner would read them. *)
Definition uncapped_blocks_of (sender : address) (minutesExt : externalEuint64)
           (proof : list Byte.byte) (w : World) : option Z :=
  match quote_uncapped sender minutesExt proof w with
  | Done h w' => decrypt w' h
  | Reverted _ _ => None
  end.

End Observations.

(** The handle carried by the latest [Quoted] event of [who] in a log, [0]
    when the log has none. *)
Definition last_quoted (who : address) (log : list Event) : bytes32 :=
  foldl (fun acc ev => match ev with
                       | Quoted user feeHandle =>
                           if decide (user = who) then feeHandle else acc
                       end) 0 log.

(** ** The client's FHE SDK singleton ([initializeFHE])

    The module keeps three variables, [fheInstance], [initPromise] and
    [isSDKInitialized].  [initializeFHE] is an [async] function whose body
    suspends at [await initSDK()] and at [await createInstance(...)]; the
    model is the state machine of these suspensions: a call of the
    function, and the settlement of either SDK promise, are the events.
    The two SDK functions return promises, so they settle in a later
    event, never inside the call. *)

Module FheSdk.

Inductive SdkCall : Set := InitSDK | CreateInstance.

#[global] Instance SdkCall_eq_dec : EqDecision SdkCall.
Proof. solve_decision. Defined.

(** Where the body of the pending initialisation is suspended. *)
Inductive Phase : Set := AwaitInitSDK | AwaitCreateInstance.

Section Sdk.

(** The object [createInstance] resolves to, and what a promise rejects
    with. *)
Variable Instance : Type.
Variable Err : Type.

(** The promise held in [initPromise]: the [catch] block resets the
    variable to [null], so a rejected promise is never kept. *)
Inductive Promise : Type :=
| Pending (ph : Phase)
| Fulfilled (i : Instance).

Record SdkState : Type := mkSdkState {
  fheInstance : option Instance;
  initPromise : option Promise;
  isSDKInitialized : bool;
  sdk_calls : list SdkCall
}.

(** The module as loaded: [null], [null], [false]; no SDK call made. *)
Definition loaded : SdkState := mkSdkState None None false [].

Inductive Event : Type :=
| Call_initializeFHE
| InitSDK_resolves
| InitSDK_rejects (e : Err)
| CreateInstance_resolves (i : Instance)
| CreateInstance_rejects (e : Err).

(** [initializeFHE()] up to its first suspension. *)
Definition initializeFHE (s : SdkState) : SdkState :=
  match fheInstance s with
  | Some _ => s
  | None =>
      match initPromise s with
      | Some _ => s
      | None =>
          if isSDKInitialized s
          then mkSdkState None (Some (Pending AwaitCreateInstance)) true
                        (sdk_calls s ++ [CreateInstance])
          else mkSdkState None (Some (Pending AwaitInitSDK)) false
                        (sdk_calls s ++ [InitSDK])
      end
  end.

(** The body resumes when the awaited promise settles; a settlement that
    nothing awaits does not occur and is ignored. *)
Definition step (s : SdkState) (ev : Event) : SdkState :=
  match ev, initPromise s with
  | Call_initializeFHE, _ => initializeFHE s
  | InitSDK_resolves, Some (Pending AwaitInitSDK) =>
      mkSdkState (fheInstance s) (Some (Pending AwaitCreateInstance)) true
               (sdk_calls s ++ [CreateInstance])
  | InitSDK_rejects _, Some (Pending AwaitInitSDK) =>
      mkSdkState (fheInstance s) None (isSDKInitialized s) (sdk_calls s)
  | CreateInstance_resolves i, Some (Pending AwaitCreateInstance) =>
      mkSdkState (Some i) (Some (Fulfilled i)) (isSDKInitialized s) (sdk_calls s)
  | CreateInstance_rejects _, Some (Pending AwaitCreateInstance) =>
      mkSdkState (fheInstance s) None (isSDKInitialized s) (sdk_calls s)
  | _, _ => s
  end.

Definition run (evs : list Event) (s : SdkState) : SdkState := foldl step s evs.

Definition getFHEInstance (s : SdkState) : option Instance := fheInstance s.

Definition isFHEInitialized (s : SdkState) : bool :=
  match fheInstance s with Some _ => true | None => false end.

(** How often [initSDK] was called. *)
Definition initSDK_calls (s : SdkState) : nat :=
  length (filter (fun c => c = InitSDK) (sdk_calls s)).

(** The three shapes the variables take together. *)
Inductive Shape (s : SdkState) : Prop :=
| Idle : fheInstance s = None -> initPromise s = None -> Shape s
| Initialising (ph : Phase) :
    fheInstance s = None -> initPromise s = Some (Pending ph) ->
    (ph = AwaitCreateInstance -> isSDKInitialized s = true) ->
    (ph = AwaitInitSDK -> isSDKInitialized s = false) ->
    Shape s
| Ready (i : Instance) :
    fheInstance s = Some i -> initPromise s = Some (Fulfilled i) ->
    isSDKInitialized s = true -> Shape s.

End Sdk.

End FheSdk.

(** ** The fetch-retry shim ([createFetchRetry])

    A JavaScript [number] is read as a rational: every finite double is
    one, and [NaN] and the infinities, which [validateOptions] rejects
    where it checks, are left out.  The attempt counter is a double
    counting up from 0: [attempt + 1] is exact as long as [attempt] is
    below 2^53 and equals [attempt] there, so from 2^53 on the same attempt
    number would be used again; the description of a run ends at that
    point.  [fetchImpl] returns a promise, whose outcome at the call for
    attempt [k] is [fetchImpl k].  The callbacks [retryDelay] and
    [retryOn] may throw, which their results record.  A property of an
    options object is absent, present with the value [undefined], or
    given.  The checks of [createFetchRetry] on the types of its two
    arguments cannot fail on arguments of the declared types. *)

Module FetchRetry.

Inductive field (A : Type) : Type :=
| Absent
| Undefined
| Given (a : A).
Arguments Absent {A}.
Arguments Undefined {A}.
Arguments Given {A} a.

(** Reading a property: [undefined] when absent. *)
Definition read {A : Type} (f : field A) : option A :=
  match f with
  | Given a => Some a
  | Absent | Undefined => None
  end.

(** [Number.isInteger(value) && value >= 0] on a number. *)
Definition isPositiveInteger (value : Q) : bool :=
  Qeq_bool value (inject_Z (Qfloor value)) && Qle_bool 0 value.

Inductive Step : Type :=
| Fetched (attempt : Z)
| Timer (delay : option Q).

(** The least double [x] with [x + 1 = x]: the attempt counter is a
    [number], and counting up from 0 stops here. *)
Definition absorbing : Z := 2 ^ 53.


Section Shim.

Variable Response : Type.
Variable status : Response -> Z.
Variable Err : Type.

(** A [retryDelay] function returns a number, or throws. *)
Definition RetryDelayFn : Type := Z -> option Err -> option Response -> Err + Q.

(** A [retryOn] function returns a boolean, or throws (or rejects). *)
Definition RetryOnFn : Type := Z -> option Err -> option Response -> Err + bool.

Record Options : Type := mkOptions {
  retries : field Q;
  retryDelay : field (Q + RetryDelayFn);
  retryOn : field (list Q + RetryOnFn)
}.

Definition BASE_DEFAULTS : Options :=
  mkOptions (Given 3%Q) (Given (inl 1000%Q)) (Given (inl [])).

(** [validateOptions]: the message of the error it throws, if any.  A
    [retryOn] of the declared type is an array or a function, so the third
    check never throws. *)
Definition validateOptions (options : Options) : option string :=
  if match read (retries options) with
     | Some value => negb (isPositiveInteger value)
     | None => false
     end
  then Some "retries must be a positive integer"%string
  else if match read (retryDelay options) with
          | Some (inl value) => negb (isPositiveInteger value)
          | Some (inr _) => false
          | None => false
          end
  then Some "retryDelay must be a positive integer or a function returning a positive integer"%string
  else if match read (retryOn options) with
          | Some (inl _) => false
          | Some (inr _) => false
          | None => false
          end
  then Some "retryOn property expects an array or function"%string
  else None.

(** One property of [{ ...BASE_DEFAULTS, ...defaults }]: a property present
    in [defaults] wins, also when its value is [undefined]. *)
Definition spread {A : Type} (base defaults : field A) : field A :=
  match defaults with
  | Absent => base
  | Undefined | Given _ => defaults
  end.

Definition merge (defaults : Options) : Options :=
  mkOptions (spread (retries BASE_DEFAULTS) (retries defaults))
            (spread (retryDelay BASE_DEFAULTS) (retryDelay defaults))
            (spread (retryOn BASE_DEFAULTS) (retryOn defaults)).

(** [a ?? b]. *)
Definition nullish {A : Type} (a b : option A) : option A :=
  match a with
  | Some _ => a
  | None => b
  end.

Inductive Reason : Type :=
| Raised (e : Err)
| NotAFunction
| Invalid (message : string).

Inductive Settled : Type :=
| Resolved (response : Response)
| Rejected (reason : Reason).

(** What becomes of the promise that [fetchRetry] returns: [resolve] or
    [reject] is called; or the [catch] handler itself throws, so neither
    is ever called and the promise stays pending; or the attempt counter
    has reached [absorbing], where [wrappedFetch] is called with the same
    attempt number again and the description ends. *)
Inductive Outcome : Type :=
| Settles (result : Settled)
| Unsettled
| CounterStuck.

(** What one handler of the chain [.then(...).catch(...)] does: [retry]
    sets the timer for the next attempt, or [resolve] or [reject] is
    called, or the handler throws and the promise it returns rejects. *)
Inductive Handled : Type :=
| Timed (delay : option Q)
| Ended (result : Settled)
| Threw (e : Err).

Section Loop.

(** The outcome of each call of [fetchImpl], which returns a promise: it
    resolves with a response or rejects.  The calls are numbered by the
    attempt they are made for. *)
Variable fetchImpl : Z -> Response + Err.
Variable the_retries : option Q.
Variable the_retryDelay : option (Q + RetryDelayFn).
Variable the_retryOn : option (list Q + RetryOnFn).

(** [attempt < retries]; false when [retries] is [undefined]. *)
Definition below_retries (attempt : Z) : bool :=
  match the_retries with
  | Some n => negb (Qle_bool n (inject_Z attempt))
  | None => false
  end.

(** [retryOn.includes(response.status)]. *)
Definition includes (statuses : list Q) (s : Z) : bool :=
  existsb (fun x => Qeq_bool x (inject_Z s)) statuses.

(** [retry(attempt, error, response)] up to its [setTimeout]: the delay
    handed to the timer, or what [retryDelay] throws, in which case no
    timer is set. *)
Definition retry (attempt : Z) (error : option Err) (response : option Response)
  : Err + option Q :=
  match the_retryDelay with
  | Some (inl d) => inr (Some d)
  | Some (inr f) =>
      match f attempt error response with
      | inr d => inr (Some d)
      | inl e => inl e
      end
  | None => inr None
  end.

(** The [then] handler.  With [retryOn] an array the call of [retry] is
    outside any [try]; with a function it is inside the [try] whose
    [catch] rejects. *)
Definition then_handler (attempt : Z) (response : Response) : Handled :=
  match the_retryOn with
  | Some (inl statuses) =>
      if includes statuses (status response) && below_retries attempt
      then match retry attempt None (Some response) with
           | inr delay => Timed delay
           | inl e => Threw e
           end
      else Ended (Resolved response)
  | Some (inr f) =>
      match f attempt None (Some response) with
      | inr shouldRetry =>
          if shouldRetry && below_retries attempt
          then match retry attempt None (Some response) with
               | inr delay => Timed delay
               | inl e => Ended (Rejected (Raised e))
               end
          else Ended (Resolved response)
      | inl error => Ended (Rejected (Raised error))
      end
  | None => Ended (Rejected NotAFunction)
  end.

(** The [catch] handler. *)
Definition catch_handler (attempt : Z) (error : Err) : Handled :=
  match the_retryOn with
  | Some (inl _) =>
      if below_retries attempt
      then match retry attempt (Some error) None with
           | inr delay => Timed delay
           | inl e => Threw e
           end
      else Ended (Rejected (Raised error))
  | Some (inr f) =>
      match f attempt (Some error) None with
      | inr shouldRetry =>
          if shouldRetry && below_retries attempt
          then match retry attempt (Some error) None with
               | inr delay => Timed delay
               | inl e => Ended (Rejected (Raised e))
               end
          else Ended (Rejected (Raised error))
      | inl retryError => Ended (Rejected (Raised retryError))
      end
  | None => Ended (Rejected NotAFunction)
  end.

(** [fetchImpl(request, init).then(...).catch(...)]: the [catch] handler
    receives a rejection of the fetch and also what the [then] handler
    throws; what the [catch] handler throws nobody receives. *)
Definition after_fetch (attempt : Z) : Handled :=
  match fetchImpl attempt with
  | inl response =>
      match then_handler attempt response with
      | Threw e => catch_handler attempt e
      | Timed delay => Timed delay
      | Ended result => Ended result
      end
  | inr error => catch_handler attempt error
  end.

Definition remaining (attempt : Z) : nat :=
  match the_retries with
  | Some n => Z.to_nat (Qceiling n - attempt)
  | None => 0
  end.

(** [wrappedFetch(attempt)] to the end: what becomes of the promise and,
    in order, the fetches made and the timers set.  The counter is a
    double: [attempt + 1] is exact below [absorbing]. *)
Equations? wrappedFetch (attempt : Z) : Outcome * list Step
  by wf (remaining attempt) lt :=
  wrappedFetch attempt
    with exist (fun h => after_fetch attempt = h) (after_fetch attempt) eq_refl => {
    | exist _ (Ended result) _ => (Settles result, [Fetched attempt]);
    | exist _ (Threw _) _ => (Unsettled, [Fetched attempt]);
    | exist _ (Timed delay) Hnext with Z_lt_dec attempt absorbing => {
        | left _ =>
            let rest := wrappedFetch (attempt + 1) in
            (fst rest, Fetched attempt :: Timer delay :: snd rest);
        | right _ => (CounterStuck, [Fetched attempt; Timer delay]) } }.
Proof.
  assert (Hbelow : below_retries attempt = true).
  { revert Hnext. unfold after_fetch, then_handler, catch_handler.
    destruct (below_retries attempt); [reflexivity | ].
    destruct (fetchImpl attempt) as [r | e];
      destruct the_retryOn as [[statuses | f] | ]; try discriminate.
    - rewrite andb_false_r. discriminate.
    - destruct (f attempt None (Some r)) as [e' | b]; [discriminate | ].
      rewrite andb_false_r. discriminate.
    - destruct (f attempt (Some e) None) as [e' | b]; [discriminate | ].
      rewrite andb_false_r. discriminate. }
  revert Hbelow. unfold below_retries, remaining.
  destruct the_retries as [n | ]; [ | discriminate].
  intros Hlt. apply negb_true_iff in Hlt.
  assert (Hq : (inject_Z attempt < n)%Q).
  { apply Qnot_le_lt. intros Hle. apply Qle_bool_iff in Hle. congruence. }
  assert (Hc : attempt < Qceiling n).
  { rewrite Zlt_Qlt. eapply Qlt_le_trans; [exact Hq | apply Qle_ceiling]. }
  lia.
Qed.

End Loop.

(** [createFetchRetry(fetchImpl, defaults)(input, init)]: [inl] when the
    factory throws, otherwise what becomes of the returned promise. *)
Definition createFetchRetry (fetchImpl : Z -> Response + Err) (defaults init : Options)
  : string + (Outcome * list Step) :=
  match validateOptions defaults with
  | Some message => inl message
  | None =>
      let mergedDefaults := merge defaults in
      inr match validateOptions init with
          | Some message => (Settles (Rejected (Invalid message)), [])
          | None =>
              wrappedFetch fetchImpl
                (nullish (read (retries init)) (read (retries mergedDefaults)))
                (nullish (read (retryDelay init)) (read (retryDelay mergedDefaults)))
                (nullish (read (retryOn init)) (read (retryOn mergedDefaults)))
                0
          end
  end.

(** Whether the outcome of attempt [j] asks for another one when
    [retryOn] is the array [statuses]: a listed status, or any error. *)
Definition retriable (fetchImpl : Z -> Response + Err) (statuses : list Q) (j : Z) : bool :=
  match fetchImpl j with
  | inl response => includes statuses (status response)
  | inr _ => true
  end.

(** The settlement that passes the outcome of a fetch on unchanged. *)
Definition passed_on (outcome : Response + Err) : Settled :=
  match outcome with
  | inl response => Resolved response
  | inr error => Rejected (Raised error)
  end.

End Shim.

Arguments mkOptions {Response Err} retries retryDelay retryOn.
Arguments retries {Response Err} o.
Arguments retryDelay {Response Err} o.
Arguments retryOn {Response Err} o.
Arguments validateOptions {Response Err} options.
Arguments merge {Response Err} defaults.
Arguments Raised {Err} e.
Arguments NotAFunction {Err}.
Arguments Invalid {Err} message.
Arguments Resolved {Response Err} response.
Arguments Rejected {Response Err} reason.
Arguments Settles {Response Err} result.
Arguments Unsettled {Response Err}.
Arguments CounterStuck {Response Err}.
Arguments Timed {Response Err} delay.
Arguments Ended {Response Err} result.
Arguments Threw {Response Err} e.
Arguments retry {Response Err} the_retryDelay attempt error response.
Arguments then_handler {Response} status {Err}
  the_retries the_retryDelay the_retryOn attempt response.
Arguments catch_handler {Response Err} the_retries the_retryDelay the_retryOn attempt error.
Arguments after_fetch {Response} status {Err}
  fetchImpl the_retries the_retryDelay the_retryOn attempt.
Arguments wrappedFetch {Response} status {Err}
  fetchImpl the_retries the_retryDelay the_retryOn attempt.
Arguments createFetchRetry {Response} status {Err} fetchImpl defaults init.
Arguments retriable {Response} status {Err} fetchImpl statuses j.
Arguments passed_on {Response Err} outcome.

Definition fetches (trace : list Step) : list Z :=
  omap (fun st => match st with Fetched a => Some a | Timer _ => None end) trace.

(** A server that fails twice, answers 503 once, then answers 200. *)
Definition flaky : Z -> Z + Z :=
  fun attempt => if attempt <? 2 then inr attempt
                 else if attempt <? 3 then inl 503 else inl 200.

Definition no_options : @Options Z Z := mkOptions Absent Absent Absent.

(** A [retryDelay] that throws unless it is told of an error. *)
Definition moody : RetryDelayFn Z Z :=
  fun attempt error response =>
    match error with
    | Some e => inr (inject_Z e)
    | None => inl 99
    end.

(** A [retryDelay] that always throws. *)
Definition sulky : RetryDelayFn Z Z := fun attempt error response => inl 99.

End FetchRetry.

(** * Proofs *)

(** ** Machine integers *)

Lemma shl_1 (k : Z) : 0 <= k < 64 -> UInt.shl 64 1 k = 2 ^ k.
Proof.
  intros Hk. unfold UInt.shl, UInt.wrap. rewrite Z.shiftl_1_l.
  apply Z.mod_small. split; [lia | apply Z.pow_lt_mono_r; lia].
Qed.

Lemma wrap_small (w z : Z) : 0 <= z < 2 ^ w -> UInt.wrap w z = z.
Proof. apply Z.mod_small. Qed.

Lemma pow2_le_16 (k : Z) : 0 <= k <= 16 -> 1 <= 2 ^ k <= 65536.
Proof.
  intros Hk. split; [lia | ].
  change 65536 with (2 ^ 16). apply Z.pow_le_mono_r; lia.
Qed.

(** ** [_msbPos] is the binary logarithm *)

Lemma _msbPos_loop_log2 (x p : Z) :
  1 <= x -> 0 <= p -> p + Z.log2 x < 256 ->
  _msbPos_loop x p = p + Z.log2 x.
Proof.
  funelim (_msbPos_loop x p); intros Hx Hp Hlt.
  - assert (Hlog : 1 <= Z.log2 x) by (apply Z.log2_le_pow2; lia).
    assert (Hshr : Z.log2 (UInt.shr x 1) = Z.log2 x - 1).
    { unfold UInt.shr. rewrite Z.log2_shiftr by lia. lia. }
    assert (Hx1 : 1 <= UInt.shr x 1).
    { unfold UInt.shr. rewrite Z.shiftr_div_pow2 by lia.
      change (2 ^ 1) with 2. apply Z.div_le_lower_bound; lia. }
    rewrite wrap_small in * by (change (2 ^ 8) with 256; lia).
    rewrite H; lia.
  - assert (x = 1) by lia. subst x. change (Z.log2 1) with 0. lia.
Qed.

Lemma _msbPos_log2 (x : Z) : 1 <= x <= UInt.max 16 -> _msbPos x = Z.log2 x.
Proof.
  intros [Hlo Hhi]. unfold _msbPos. rewrite _msbPos_loop_log2; try lia.
  assert (Z.log2 x < 16); [ | lia].
  apply Z.log2_lt_pow2; [lia | ]. unfold UInt.max in Hhi. lia.
Qed.

Lemma _msbPos_bounds (x : Z) :
  1 <= x <= UInt.max 16 ->
  0 <= _msbPos x <= 15 /\ 2 ^ _msbPos x <= x < 2 ^ (_msbPos x + 1).
Proof.
  intros Hx. rewrite _msbPos_log2 by exact Hx. destruct Hx as [Hlo Hhi].
  pose proof (Z.log2_nonneg x).
  assert (Z.log2 x < 16).
  { apply Z.log2_lt_pow2; [lia | ]. unfold UInt.max in Hhi. lia. }
  pose proof (Z.log2_spec x ltac:(lia)) as Hspec.
  replace (Z.succ (Z.log2 x)) with (Z.log2 x + 1) in Hspec by lia.
  lia.
Qed.

(** ** The ladder is restoring division by [BLOCK_MINUTES] *)

Lemma ladder_clear_spec (ki : nat) : forall r b : Z,
  (ki <= 16)%nat -> 0 <= r < 2 ^ 64 -> 0 <= b -> b + 2 ^ Z.of_nat ki <= 2 ^ 32 ->
  ladder_clear ki r b =
    if decide (r < BLOCK_MINUTES * 2 ^ Z.of_nat ki)
    then (r mod BLOCK_MINUTES, b + r / BLOCK_MINUTES)
    else (r - BLOCK_MINUTES * (2 ^ Z.of_nat ki - 1), b + 2 ^ Z.of_nat ki - 1).
Proof.
  unfold BLOCK_MINUTES.
  induction ki as [ | ki IH]; intros r b Hki Hr Hb Hsum.
  - cbn [ladder_clear]. change (2 ^ Z.of_nat 0) with 1.
    destruct (decide (r < 30 * 1)) as [Hlt | Hge].
    + rewrite Z.mod_small, Z.div_small by lia. f_equal; lia.
    + f_equal; lia.
  - cbn [ladder_clear]. unfold BLOCK_MINUTES.
    rewrite shl_1 by lia.
    replace (Z.of_nat (S ki)) with (Z.of_nat ki + 1) in * by lia.
    rewrite Z.pow_add_r in * by lia. change (2 ^ 1) with 2 in *.
    pose proof (pow2_le_16 (Z.of_nat ki) ltac:(lia)) as Hp.
    set (c := 2 ^ Z.of_nat ki) in *.
    destruct (decide (30 * c - 1 < r)) as [Hge | Hlt].
    + destruct (decide (1 = 0)) as [? | _]; [lia | ].
      rewrite !wrap_small by lia.
      rewrite IH by lia.
      destruct (decide (r - 30 * c < 30 * c)) as [H1 | H1];
        destruct (decide (r < 30 * (c * 2))) as [H2 | H2]; try lia.
      * replace r with ((r - 30 * c) + c * 30) at 3 4 by lia.
        rewrite Z_mod_plus_full, Z_div_plus_full by lia.
        f_equal; lia.
      * f_equal; lia.
    + destruct (decide (0 = 0)) as [_ | ?]; [ | lia].
      rewrite IH by lia.
      destruct (decide (r < 30 * c)) as [H1 | H1];
        destruct (decide (r < 30 * (c * 2))) as [H2 | H2]; try lia.
      reflexivity.
Qed.

Lemma ladder_rounds_of (mb : Z) :
  1 <= mb <= UInt.max 16 ->
  Z.of_nat (Z.to_nat (_msbPos mb + 1)) = _msbPos mb + 1 /\
  (Z.to_nat (_msbPos mb + 1) <= 16)%nat.
Proof. intros Hmb. pose proof (_msbPos_bounds mb Hmb). lia. Qed.

Lemma blocks_clear_in_range (mb r : Z) :
  1 <= mb <= UInt.max 16 ->
  0 <= r <= BLOCK_MINUTES * 2 ^ (_msbPos mb + 1) - 1 ->
  blocks_clear mb r = ceil_div r BLOCK_MINUTES.
Proof.
  intros Hmb Hr. unfold blocks_clear, ceil_div.
  destruct (ladder_rounds_of mb Hmb) as [Hk Hk16].
  pose proof (_msbPos_bounds mb Hmb) as [Hpos _].
  pose proof (pow2_le_16 (_msbPos mb + 1) ltac:(lia)) as Hp.
  unfold BLOCK_MINUTES in *.
  rewrite ladder_clear_spec; rewrite ?Hk; unfold BLOCK_MINUTES; try lia.
  destruct (decide (r < 30 * 2 ^ (_msbPos mb + 1))) as [_ | ?]; [ | lia].
  cbn [fst snd].
  destruct (decide (0 < r mod 30)) as [Hm | Hm].
  - destruct (decide (1 = 0)); [lia | ].
    rewrite wrap_small by (Z.div_mod_to_equations; lia).
    Z.div_mod_to_equations; lia.
  - destruct (decide (0 = 0)); [ | lia].
    Z.div_mod_to_equations; lia.
Qed.

Lemma blocks_clear_saturated (mb r : Z) :
  1 <= mb <= UInt.max 16 ->
  BLOCK_MINUTES * 2 ^ (_msbPos mb + 1) <= r < 2 ^ 64 ->
  blocks_clear mb r = 2 ^ (_msbPos mb + 1).
Proof.
  intros Hmb Hr. unfold blocks_clear.
  destruct (ladder_rounds_of mb Hmb) as [Hk Hk16].
  pose proof (_msbPos_bounds mb Hmb) as [Hpos _].
  pose proof (pow2_le_16 (_msbPos mb + 1) ltac:(lia)) as Hp.
  unfold BLOCK_MINUTES in *.
  rewrite ladder_clear_spec; rewrite ?Hk; unfold BLOCK_MINUTES; try lia.
  destruct (decide (r < 30 * 2 ^ (_msbPos mb + 1))) as [? | _]; [lia | ].
  cbn [fst snd].
  destruct (decide (0 < r - 30 * (2 ^ (_msbPos mb + 1) - 1))) as [_ | ?]; [ | lia].
  destruct (decide (1 = 0)); [lia | ].
  rewrite wrap_small by lia. lia.
Qed.

Lemma capped_clear_min (mb r : Z) :
  1 <= mb <= UInt.max 16 -> 0 <= r < 2 ^ 64 ->
  capped_clear mb r = Z.min (ceil_div r BLOCK_MINUTES) mb.
Proof.
  intros Hmb Hr. unfold capped_clear.
  pose proof (_msbPos_bounds mb Hmb) as [Hpos Hlog].
  destruct (decide (r < BLOCK_MINUTES * 2 ^ (_msbPos mb + 1))) as [Hin | Hout].
  - rewrite blocks_clear_in_range by lia.
    destruct (decide (mb < ceil_div r BLOCK_MINUTES));
      [destruct (decide (1 = 0)) | destruct (decide (0 = 0))]; lia.
  - rewrite blocks_clear_saturated by lia.
    assert (mb < ceil_div r BLOCK_MINUTES).
    { unfold ceil_div, BLOCK_MINUTES in *.
      apply Z.lt_le_trans with (2 ^ (_msbPos mb + 1)); [lia | ].
      apply Z.div_le_lower_bound; lia. }
    destruct (decide (mb < 2 ^ (_msbPos mb + 1)));
      [destruct (decide (1 = 0)) | destruct (decide (0 = 0))]; lia.
Qed.

Lemma ceil_div_mono (a b : Z) : a <= b -> ceil_div a BLOCK_MINUTES <= ceil_div b BLOCK_MINUTES.
Proof. intros Hab. unfold ceil_div, BLOCK_MINUTES. apply Z.div_le_mono; lia. Qed.

(** ** The monad and the ciphertext store *)

Lemma bind_Done {A B : Type} (m : M A) (f : A -> M B) (w w' : World) (a : A) :
  m w = Done a w' -> (m ≫= f) w = f a w'.
Proof. intros Hm. unfold mbind, M_bind. rewrite Hm. reflexivity. Qed.

Lemma bind_Reverted {A B : Type} (m : M A) (f : A -> M B) (w w' : World) (e : Error) :
  m w = Reverted e w' -> (m ≫= f) w = Reverted e w'.
Proof. intros Hm. unfold mbind, M_bind. rewrite Hm. reflexivity. Qed.

Lemma gets_run {A : Type} (f : World -> A) (w : World) : gets f w = Done (f w) w.
Proof. reflexivity. Qed.

Lemma modify_run (f : World -> World) (w : World) : modify f w = Done tt (f w).
Proof. reflexivity. Qed.

Lemma checked_run (n z : Z) (w : World) :
  0 <= z <= UInt.max n -> checked n z w = Done z w.
Proof. intros Hz. unfold checked. destruct (decide (0 <= z <= UInt.max n)); [reflexivity | lia]. Qed.

Lemma require_true_run (e : Error) (w : World) : require true e w = Done tt w.
Proof. reflexivity. Qed.

Lemma require_false_run (e : Error) (w : World) : require false e w = Reverted e w.
Proof. reflexivity. Qed.

Lemma push_nil (w : World) : push_ciphertexts [] w = w.
Proof. destruct w. unfold push_ciphertexts. cbn. rewrite app_nil_r. reflexivity. Qed.

Lemma push_push (l1 l2 : list Ciphertext) (w : World) :
  push_ciphertexts l2 (push_ciphertexts l1 w) = push_ciphertexts (l1 ++ l2) w.
Proof. unfold push_ciphertexts. cbn. rewrite app_assoc. reflexivity. Qed.

Lemma decrypt_push (w : World) (l : list Ciphertext) (h v : Z) :
  decrypt w h = Some v -> decrypt (push_ciphertexts l w) h = Some v.
Proof.
  unfold decrypt, ciphertext_at. cbn.
  destruct (decide (1 <= h)) as [Hh | Hh]; [ | discriminate].
  destruct (ciphertexts w !! Z.to_nat (h - 1)) as [c | ] eqn:Hc; [ | discriminate].
  intros Hv. rewrite (lookup_app_l_Some _ _ _ _ Hc). exact Hv.
Qed.

Lemma decrypt_fresh (w : World) (c : Ciphertext) :
  decrypt (push_ciphertexts [c] w) (next_handle w) = Some (clear c).
Proof.
  unfold decrypt, ciphertext_at, next_handle. cbn.
  destruct (decide (1 <= Z.of_nat (length (ciphertexts w)) + 1)) as [_ | ?]; [ | lia].
  replace (Z.to_nat (Z.of_nat (length (ciphertexts w)) + 1 - 1))
    with (length (ciphertexts w)) by lia.
  rewrite list_lookup_middle by reflexivity. reflexivity.
Qed.

Lemma decrypt_same_store (w w' : World) (h : Z) :
  ciphertexts w' = ciphertexts w -> decrypt w' h = decrypt w h.
Proof. intros Heq. unfold decrypt, ciphertext_at. rewrite Heq. reflexivity. Qed.

Lemma decrypt_allocated (w : World) (h v : Z) :
  decrypt w h = Some v -> 1 <= h < next_handle w.
Proof.
  unfold decrypt, ciphertext_at, next_handle.
  destruct (decide (1 <= h)) as [Hh | Hh]; [ | discriminate].
  destruct (ciphertexts w !! Z.to_nat (h - 1)) as [c | ] eqn:Hc; [ | discriminate].
  intros _. apply lookup_lt_Some in Hc. lia.
Qed.

Create HintDb store.
#[global] Hint Resolve decrypt_fresh : store.
#[global] Hint Resolve decrypt_push | 5 : store.

(** ** The primitives, run on known operands *)

Lemma fresh_run (o : FheOp) (v : Z) (w : World) :
  fresh o v w = Done (next_handle w) (push_ciphertexts [mkCiphertext o v] w).
Proof. reflexivity. Qed.

Lemma asEuint64_run (v : Z) (w : World) :
  FHE.asEuint64 v w = Done (next_handle w) (push_ciphertexts [mkCiphertext OpTrivialEncrypt v] w).
Proof. reflexivity. Qed.

Lemma operand_run (w : World) (h v : Z) : decrypt w h = Some v -> operand h w = Done v w.
Proof. intros Hh. unfold operand. rewrite Hh. reflexivity. Qed.

Lemma add_run (w : World) (a b va vb : Z) :
  decrypt w a = Some va -> decrypt w b = Some vb ->
  FHE.add a b w =
    Done (next_handle w) (push_ciphertexts [mkCiphertext OpAdd (UInt.wrap 64 (va + vb))] w).
Proof.
  intros Ha Hb. unfold FHE.add.
  rewrite (bind_Done _ _ _ _ _ (operand_run _ _ _ Ha)).
  rewrite (bind_Done _ _ _ _ _ (operand_run _ _ _ Hb)). reflexivity.
Qed.

Lemma sub_run (w : World) (a b va vb : Z) :
  decrypt w a = Some va -> decrypt w b = Some vb ->
  FHE.sub a b w =
    Done (next_handle w) (push_ciphertexts [mkCiphertext OpSub (UInt.wrap 64 (va - vb))] w).
Proof.
  intros Ha Hb. unfold FHE.sub.
  rewrite (bind_Done _ _ _ _ _ (operand_run _ _ _ Ha)).
  rewrite (bind_Done _ _ _ _ _ (operand_run _ _ _ Hb)). reflexivity.
Qed.

Lemma mul_run (w : World) (a b va vb : Z) :
  decrypt w a = Some va -> decrypt w b = Some vb ->
  FHE.mul a b w =
    Done (next_handle w) (push_ciphertexts [mkCiphertext OpMul (UInt.wrap 64 (va * vb))] w).
Proof.
  intros Ha Hb. unfold FHE.mul.
  rewrite (bind_Done _ _ _ _ _ (operand_run _ _ _ Ha)).
  rewrite (bind_Done _ _ _ _ _ (operand_run _ _ _ Hb)). reflexivity.
Qed.

Lemma gt_run (w : World) (a b va vb : Z) :
  decrypt w a = Some va -> decrypt w b = Some vb ->
  FHE.gt a b w =
    Done (next_handle w)
         (push_ciphertexts [mkCiphertext OpGt (if decide (vb < va) then 1 else 0)] w).
Proof.
  intros Ha Hb. unfold FHE.gt.
  rewrite (bind_Done _ _ _ _ _ (operand_run _ _ _ Ha)).
  rewrite (bind_Done _ _ _ _ _ (operand_run _ _ _ Hb)). reflexivity.
Qed.

Lemma select_run (w : World) (c a b vc va vb : Z) :
  decrypt w c = Some vc -> decrypt w a = Some va -> decrypt w b = Some vb ->
  FHE.select c a b w =
    Done (next_handle w)
         (push_ciphertexts [mkCiphertext OpSelect (if decide (vc = 0) then vb else va)] w).
Proof.
  intros Hc Ha Hb. unfold FHE.select.
  rewrite (bind_Done _ _ _ _ _ (operand_run _ _ _ Hc)).
  rewrite (bind_Done _ _ _ _ _ (operand_run _ _ _ Ha)).
  rewrite (bind_Done _ _ _ _ _ (operand_run _ _ _ Hb)). reflexivity.
Qed.

(** One statement of a function body: run it and move to its continuation. *)
Ltac exec lem :=
  erewrite bind_Done; [ | apply lem; eauto 8 with store ]; cbv beta.

Ltac exec_pure lem :=
  erewrite bind_Done; [ | apply lem ]; cbv beta.

(** ** The ladder, run *)

Lemma ladder_run (ki : nat) : forall (w : World) (rem blocks r b : Z),
  (ki <= 16)%nat -> decrypt w rem = Some r -> decrypt w blocks = Some b ->
  exists (rem' blocks' : Z) (l : list Ciphertext),
    ladder ki rem blocks w = Done (rem', blocks') (push_ciphertexts l w) /\
    decrypt (push_ciphertexts l w) rem' = Some (fst (ladder_clear ki r b)) /\
    decrypt (push_ciphertexts l w) blocks' = Some (snd (ladder_clear ki r b)) /\
    map made_by l = ladder_ops ki.
Proof.
  induction ki as [ | ki IH]; intros w rem blocks r b Hki Hrem Hblocks.
  - exists rem, blocks, []. rewrite push_nil. cbn. auto.
  - cbn [ladder ladder_clear ladder_ops].
    pose proof (pow2_le_16 (Z.of_nat ki) ltac:(lia)) as Hp.
    assert (Hshl : UInt.shl 64 1 (Z.of_nat ki) = 2 ^ Z.of_nat ki) by (apply shl_1; lia).
    exec_pure checked_run; [ | rewrite Hshl; unfold BLOCK_MINUTES, UInt.max; lia].
    exec_pure checked_run; [ | rewrite Hshl; unfold BLOCK_MINUTES, UInt.max; lia].
    exec asEuint64_run.
    exec gt_run.
    exec asEuint64_run.
    exec sub_run.
    exec select_run.
    exec asEuint64_run.
    exec add_run.
    exec select_run.
    match goal with
    | |- context [ladder ki ?rem1 ?blocks1 ?w1] =>
        destruct (IH w1 rem1 blocks1 _ _ ltac:(lia)
                     ltac:(eauto 8 with store) ltac:(eauto 12 with store))
          as (rem' & blocks' & l & Hrun & Hr' & Hb' & Hops)
    end.
    rewrite Hrun. clear Hrun.
    rewrite !push_push in Hr'. rewrite !push_push in Hb'. rewrite !push_push.
    eexists rem', blocks', _. split; [reflexivity | ].
    split; [exact Hr' | ]. split; [exact Hb' | ].
    rewrite !map_app, Hops. reflexivity.
Qed.

Lemma decrypt_fresh_app (w : World) (l : list Ciphertext) (c : Ciphertext) :
  decrypt (push_ciphertexts (l ++ [c]) w) (next_handle (push_ciphertexts l w)) = Some (clear c).
Proof. rewrite <- push_push. apply decrypt_fresh. Qed.

(** ** The stages of [quote], run *)

Lemma quote_blocks_run (w : World) (rem r : Z) :
  1 <= maxBlocks w <= UInt.max 16 -> decrypt w rem = Some r ->
  exists (h : Z) (l : list Ciphertext),
    quote_blocks rem w = Done h (push_ciphertexts l w) /\
    decrypt (push_ciphertexts l w) h = Some (blocks_clear (maxBlocks w) r) /\
    map made_by l = blocks_ops (Z.to_nat (_msbPos (maxBlocks w) + 1)).
Proof.
  intros Hmb Hrem. unfold quote_blocks.
  destruct (ladder_rounds_of _ Hmb) as [Hk Hk16].
  pose proof (_msbPos_bounds _ Hmb) as [Hpos _].
  exec asEuint64_run.
  exec_pure @gets_run. cbn [maxBlocks push_ciphertexts].
  exec_pure checked_run; [ | unfold UInt.max; lia].
  match goal with
  | |- context [mbind _ (ladder ?ki rem ?blocks1) ?w1] =>
      destruct (ladder_run ki w1 rem blocks1 r 0 Hk16
                  ltac:(eauto with store) ltac:(eauto with store))
        as (rem' & blocks' & l & Hrun & Hr' & Hb' & Hops)
  end.
  erewrite bind_Done by exact Hrun. cbv beta iota. clear Hrun.
  exec asEuint64_run.
  exec gt_run.
  exec asEuint64_run.
  exec add_run.
  erewrite select_run by eauto 12 with store.
  rewrite !push_push.
  eexists _, _. split; [reflexivity | ].
  split; [apply decrypt_fresh_app | ].
  rewrite !map_app, Hops. rewrite <- ?app_assoc. reflexivity.
Qed.

Lemma quote_cap_run (w : World) (blocks b : Z) :
  decrypt w blocks = Some b ->
  exists (h : Z) (l : list Ciphertext),
    quote_cap blocks w = Done h (push_ciphertexts l w) /\
    decrypt (push_ciphertexts l w) h =
      Some (if decide ((if decide (maxBlocks w < b) then 1 else 0) = 0)
            then b else maxBlocks w) /\
    map made_by l = cap_ops.
Proof.
  intros Hb. unfold quote_cap.
  exec_pure @gets_run.
  exec asEuint64_run.
  exec gt_run.
  exec_pure @gets_run. cbn [maxBlocks push_ciphertexts].
  exec asEuint64_run.
  erewrite select_run by eauto 12 with store.
  rewrite !push_push.
  eexists _, _. split; [reflexivity | ].
  split; [apply decrypt_fresh_app | ].
  reflexivity.
Qed.

Lemma quote_fee_run (w : World) (blocks b : Z) :
  decrypt w blocks = Some b ->
  exists (h : Z) (l : list Ciphertext),
    quote_fee blocks w = Done h (push_ciphertexts l w) /\
    decrypt (push_ciphertexts l w) h = Some (UInt.wrap 64 (b * pricePerBlock w)) /\
    map made_by l = fee_ops /\
    next_handle w <= h.
Proof.
  intros Hb. unfold quote_fee.
  exec_pure @gets_run.
  exec asEuint64_run.
  erewrite mul_run by eauto 12 with store.
  rewrite !push_push.
  eexists _, _. split; [reflexivity | ].
  split; [apply decrypt_fresh_app | ].
  split; [reflexivity | ].
  unfold next_handle. cbn. rewrite length_app. lia.
Qed.

Lemma next_handle_push (l : list Ciphertext) (w : World) :
  next_handle (push_ciphertexts l w) = next_handle w + Z.of_nat (length l).
Proof. unfold next_handle. cbn. rewrite length_app. lia. Qed.

Lemma read__lastFee_set_same (a : address) (h : Z) (w : World) :
  read__lastFee a (set__lastFee a h w) = h.
Proof. unfold read__lastFee. cbn. rewrite lookup_insert_eq. reflexivity. Qed.

Lemma read__lastFee_set_other (a b : address) (h : Z) (w : World) :
  a <> b -> read__lastFee b (set__lastFee a h w) = read__lastFee b w.
Proof. intros Hab. unfold read__lastFee. cbn. rewrite lookup_insert_ne by exact Hab. reflexivity. Qed.

Section Runs.

Variable this : address.
Variable inputVerifier : address -> externalEuint64 -> list Byte.byte -> option Z.

Lemma fromExternal_run (sender : address) (ext : Z) (proof : list Byte.byte)
      (minutes : Z) (w : World) :
  inputVerifier sender ext proof = Some minutes ->
  FHE_fromExternal inputVerifier sender ext proof w =
    Done (next_handle w) (push_ciphertexts [mkCiphertext OpVerifyInput minutes] w).
Proof. intros Hv. unfold FHE_fromExternal. rewrite Hv. reflexivity. Qed.

Lemma quote_capped_run (sender : address) (ext : Z) (proof : list Byte.byte)
      (minutes : Z) (w : World) :
  proof <> [] ->
  inputVerifier sender ext proof = Some minutes ->
  1 <= maxBlocks w <= UInt.max 16 ->
  exists (h : Z) (l : list Ciphertext),
    quote_capped inputVerifier sender ext proof w = Done h (push_ciphertexts l w) /\
    decrypt (push_ciphertexts l w) h = Some (capped_clear (maxBlocks w) minutes) /\
    map made_by l =
      [OpVerifyInput] ++ blocks_ops (Z.to_nat (_msbPos (maxBlocks w) + 1)) ++ cap_ops.
Proof.
  intros Hproof Hv Hmb. unfold quote_capped.
  destruct proof as [ | byte proof']; [congruence | ].
  rewrite bool_decide_eq_true_2 by (cbn [length]; lia).
  exec_pure require_true_run.
  exec_pure fromExternal_run; [ | exact Hv].
  match goal with
  | |- context [mbind _ (quote_blocks ?rem1) ?w1] =>
      destruct (quote_blocks_run w1 rem1 minutes Hmb ltac:(eauto with store))
        as (hb & lb & Hrun & Hdec & Hops)
  end.
  erewrite bind_Done by exact Hrun. cbv beta. clear Hrun.
  cbn [maxBlocks push_ciphertexts] in Hdec, Hops.
  destruct (quote_cap_run _ hb _ Hdec) as (hc & lc & Hrun & Hdec' & Hops').
  rewrite Hrun. clear Hrun.
  cbn [maxBlocks push_ciphertexts] in Hdec'.
  rewrite !push_push in Hdec'. rewrite !push_push.
  eexists _, _. split; [reflexivity | ].
  split; [exact Hdec' | ].
  rewrite !map_app, Hops, Hops'. reflexivity.
Qed.

Lemma quote_store_run (sender : address) (fee : Z) (w : World) :
  quote_store this sender fee w =
    Done fee (emit (Quoted sender fee)
                (grant fee sender (grant fee this (set__lastFee sender fee w)))).
Proof.
  unfold quote_store, FHE_allowThis, FHE.allow, FHE.toBytes32.
  exec_pure modify_run.
  exec_pure @gets_run. rewrite read__lastFee_set_same.
  exec_pure modify_run.
  exec_pure @gets_run.
  change (read__lastFee sender (grant fee this (set__lastFee sender fee w)))
    with (read__lastFee sender (set__lastFee sender fee w)).
  rewrite read__lastFee_set_same.
  exec_pure modify_run.
  exec_pure @gets_run.
  change (read__lastFee sender (grant fee sender (grant fee this (set__lastFee sender fee w))))
    with (read__lastFee sender (set__lastFee sender fee w)).
  rewrite read__lastFee_set_same.
  exec_pure modify_run.
  reflexivity.
Qed.

Lemma quote_run (sender : address) (ext : Z) (proof : list Byte.byte)
      (minutes : Z) (w : World) :
  proof <> [] ->
  inputVerifier sender ext proof = Some minutes ->
  1 <= maxBlocks w <= UInt.max 16 ->
  exists (h : Z) (l : list Ciphertext),
    quote this inputVerifier sender ext proof w = Done h (quoted this sender h l w) /\
    decrypt (push_ciphertexts l w) h =
      Some (UInt.wrap 64 (capped_clear (maxBlocks w) minutes * pricePerBlock w)) /\
    map made_by l = quote_ops (Z.to_nat (_msbPos (maxBlocks w) + 1)) /\
    next_handle w <= h.
Proof.
  intros Hproof Hv Hmb. unfold quote.
  destruct (quote_capped_run sender ext proof minutes w Hproof Hv Hmb)
    as (hc & lc & Hrun & Hdec & Hops).
  erewrite bind_Done by exact Hrun. clear Hrun.
  destruct (quote_fee_run _ hc _ Hdec) as (hf & lf & Hrun & Hdec' & Hops' & Hh).
  erewrite bind_Done by exact Hrun. clear Hrun.
  rewrite quote_store_run.
  rewrite push_push in Hdec' |- *.
  rewrite next_handle_push in Hh.
  cbn [pricePerBlock push_ciphertexts] in Hdec'.
  exists hf, (lc ++ lf). split; [reflexivity | ].
  split; [exact Hdec' | ].
  split; [ | lia].
  rewrite map_app, Hops, Hops'. unfold quote_ops. rewrite <- ?app_assoc. reflexivity.
Qed.

Lemma quote_Done_inv (sender : address) (ext : Z) (proof : list Byte.byte)
      (h : Z) (w w' : World) :
  quote this inputVerifier sender ext proof w = Done h w' ->
  proof <> [] /\ exists minutes : Z, inputVerifier sender ext proof = Some minutes.
Proof.
  unfold quote, quote_capped, FHE_fromExternal. intros Hrun.
  destruct proof as [ | byte proof'].
  - cbn in Hrun. discriminate Hrun.
  - split; [discriminate | ].
    destruct (inputVerifier sender ext (byte :: proof')) as [minutes | ].
    + exists minutes. reflexivity.
    + cbn in Hrun. discriminate Hrun.
Qed.

End Runs.

(** ** Ownership and pricing parameters *)

Lemma onlyOwner_owner (sender : address) (w : World) :
  sender = owner w -> onlyOwner sender w = Done tt w.
Proof.
  intros Hs. unfold onlyOwner. exec_pure @gets_run.
  rewrite bool_decide_eq_true_2 by exact Hs. reflexivity.
Qed.

Lemma onlyOwner_stranger (sender : address) (w : World) :
  sender <> owner w -> onlyOwner sender w = Reverted Not_owner w.
Proof.
  intros Hs. unfold onlyOwner. exec_pure @gets_run.
  rewrite bool_decide_eq_false_2 by exact Hs. reflexivity.
Qed.

Lemma setPricePerBlock_cases (sender : address) (p : Z) (w : World) :
  setPricePerBlock sender p w =
    if decide (sender = owner w)
    then if decide (0 < p) then Done tt (set_pricePerBlock p w) else Reverted price_0 w
    else Reverted Not_owner w.
Proof.
  unfold setPricePerBlock.
  destruct (decide (sender = owner w)) as [Hs | Hs].
  - exec_pure onlyOwner_owner; [ | exact Hs].
    destruct (decide (0 < p)) as [Hp | Hp].
    + rewrite bool_decide_eq_true_2 by exact Hp. reflexivity.
    + rewrite bool_decide_eq_false_2 by exact Hp. reflexivity.
  - erewrite bind_Reverted by (apply onlyOwner_stranger; exact Hs). reflexivity.
Qed.

Lemma setMaxBlocks_cases (sender : address) (m : Z) (w : World) :
  setMaxBlocks sender m w =
    if decide (sender = owner w)
    then if decide (0 < m) then Done tt (set_maxBlocks m w) else Reverted maxBlocks_0 w
    else Reverted Not_owner w.
Proof.
  unfold setMaxBlocks.
  destruct (decide (sender = owner w)) as [Hs | Hs].
  - exec_pure onlyOwner_owner; [ | exact Hs].
    destruct (decide (0 < m)) as [Hm | Hm].
    + rewrite bool_decide_eq_true_2 by exact Hm. reflexivity.
    + rewrite bool_decide_eq_false_2 by exact Hm. reflexivity.
  - erewrite bind_Reverted by (apply onlyOwner_stranger; exact Hs). reflexivity.
Qed.

Lemma transferOwnership_cases (sender : address) (n : address) (w : World) :
  transferOwnership sender n w =
    if decide (sender = owner w)
    then if decide (n <> 0) then Done tt (set_owner n w) else Reverted Zero_owner w
    else Reverted Not_owner w.
Proof.
  unfold transferOwnership.
  destruct (decide (sender = owner w)) as [Hs | Hs].
  - exec_pure onlyOwner_owner; [ | exact Hs].
    destruct (decide (n <> 0)) as [Hn | Hn].
    + rewrite bool_decide_eq_true_2 by exact Hn. reflexivity.
    + rewrite bool_decide_eq_false_2 by exact Hn. reflexivity.
  - erewrite bind_Reverted by (apply onlyOwner_stranger; exact Hs). reflexivity.
Qed.

Lemma constructor_cases (sender : address) (p m : Z) (w : World) :
  constructor sender p m w =
    if decide (0 < p)
    then if decide (0 < m)
         then Done tt (set_maxBlocks m (set_pricePerBlock p (set_owner sender w)))
         else Reverted maxBlocks_0 w
    else Reverted price_0 w.
Proof.
  unfold constructor.
  destruct (decide (0 < p)) as [Hp | Hp].
  - rewrite (bool_decide_eq_true_2 _ Hp).
    destruct (decide (0 < m)) as [Hm | Hm].
    + rewrite (bool_decide_eq_true_2 _ Hm). reflexivity.
    + rewrite (bool_decide_eq_false_2 _ Hm). reflexivity.
  - rewrite (bool_decide_eq_false_2 _ Hp). reflexivity.
Qed.

Lemma getMyFeeHandle_run (sender : address) (w : World) :
  getMyFeeHandle sender w = Done (read__lastFee sender w) w.
Proof. reflexivity. Qed.

(** ** The invariant holds in every reachable state *)

Section Reachability.

Variable this : address.
Variable inputVerifier : address -> externalEuint64 -> list Byte.byte -> option Z.

Lemma Inv_quoted (sender : address) (h v : Z) (l : list Ciphertext) (w : World) :
  Inv w -> decrypt (push_ciphertexts l w) h = Some v ->
  Inv (quoted this sender h l w).
Proof.
  intros [Hp Hm Hc] Hdec. apply decrypt_allocated in Hdec.
  rewrite next_handle_push in Hdec.
  split; [exact Hp | exact Hm | ].
  intros a h'. unfold quoted. cbn [_lastFee emit grant set__lastFee push_ciphertexts].
  change (next_handle _) with (next_handle (push_ciphertexts l w)).
  rewrite next_handle_push.
  destruct (decide (sender = a)) as [-> | Hne].
  - rewrite lookup_insert_eq. intros [= <-]. lia.
  - rewrite lookup_insert_ne by exact Hne. intros Ha. apply Hc in Ha. lia.
Qed.

(** A call to [quote] in a state satisfying the invariant either
    completes in a [quoted] state or reverts. *)
Lemma quote_cases (sender : address) (ext : Z) (proof : list Byte.byte) (w : World) :
  Inv w ->
  (exists (h minutes : Z) (l : list Ciphertext),
      proof <> [] /\ inputVerifier sender ext proof = Some minutes /\
      quote this inputVerifier sender ext proof w = Done h (quoted this sender h l w) /\
      decrypt (push_ciphertexts l w) h =
        Some (UInt.wrap 64 (capped_clear (maxBlocks w) minutes * pricePerBlock w)) /\
      map made_by l = quote_ops (Z.to_nat (_msbPos (maxBlocks w) + 1)) /\
      next_handle w <= h) \/
  (exists (e : Error) (w' : World),
      quote this inputVerifier sender ext proof w = Reverted e w').
Proof.
  intros HI.
  destruct (quote this inputVerifier sender ext proof w) as [h w' | e w'] eqn:Hrun.
  - left. destruct (quote_Done_inv _ _ _ _ _ _ _ _ Hrun) as [Hproof [minutes Hv]].
    destruct (quote_run this inputVerifier sender ext proof minutes w Hproof Hv
                (inv_maxBlocks w HI)) as (h0 & l & Hrun0 & Hdec & Hops & Hh).
    rewrite Hrun in Hrun0. injection Hrun0 as -> ->.
    exists h0, minutes, l. auto 10.
  - right. eauto.
Qed.

Lemma Inv_step (sender : address) (c : Call) (w : World) :
  Inv w -> well_typed c -> Inv (step this inputVerifier sender c w).
Proof.
  intros HI Hc. pose proof HI as [Hp Hm Hcust].
  destruct c as [n | p | m | | ext proof]; cbn [step well_typed] in *.
  - unfold external_call. rewrite transferOwnership_cases.
    repeat case_decide; cbn [fst]; try exact HI.
    split; assumption.
  - unfold external_call. rewrite setPricePerBlock_cases.
    repeat case_decide; cbn [fst]; try exact HI.
    split; [ | exact Hm | exact Hcust].
    unfold UInt.In in Hc. cbn [pricePerBlock set_pricePerBlock]. lia.
  - unfold external_call. rewrite setMaxBlocks_cases.
    repeat case_decide; cbn [fst]; try exact HI.
    split; [exact Hp | | exact Hcust].
    unfold UInt.In in Hc. cbn [maxBlocks set_maxBlocks]. lia.
  - exact HI.
  - unfold external_call.
    destruct (quote_cases sender ext proof w HI)
      as [(h & minutes & l & _ & _ & Hrun & Hdec & _) | (e & w' & Hrun)];
      rewrite Hrun; cbn [fst]; [ | exact HI].
    eapply Inv_quoted; eassumption.
Qed.

Lemma Inv_deploy (sender : address) (p m : Z) (w : World) :
  UInt.In 64 p -> UInt.In 16 m -> deploy sender p m = (w, Success tt) -> Inv w.
Proof.
  unfold deploy, external_call, UInt.In. intros Hp Hm. rewrite constructor_cases.
  repeat case_decide; intros [= <-].
  split; cbn; [lia | lia | ].
  intros a h. rewrite lookup_empty. discriminate.
Qed.

Lemma reachable_Inv (w : World) : reachable this inputVerifier w -> Inv w.
Proof.
  induction 1 as [sender p m w Hp Hm Hd | w sender c _ IH Hc].
  - eapply Inv_deploy; eassumption.
  - apply Inv_step; assumption.
Qed.

Lemma run_Inv (txs : list (address * Call)) : forall w : World,
  Inv w -> Forall (fun tx => well_typed tx.2) txs ->
  Inv (run this inputVerifier txs w).
Proof.
  induction txs as [ | [sender c] txs IH]; intros w HI Htxs; [exact HI | ].
  cbn [run]. inversion Htxs as [ | ? ? Hc Hrest]; subst.
  apply IH; [ | exact Hrest]. apply Inv_step; assumption.
Qed.

End Reachability.

(** ** What [quote] computes *)

Section Quote.

Variable this : address.
Variable inputVerifier : address -> externalEuint64 -> list Byte.byte -> option Z.

Lemma decrypt_quoted (sender : address) (h h' : Z) (l : list Ciphertext) (w : World) :
  decrypt (quoted this sender h l w) h' = decrypt (push_ciphertexts l w) h'.
Proof. apply decrypt_same_store. reflexivity. Qed.

Lemma read__lastFee_quoted (sender : address) (h : Z) (l : list Ciphertext) (w : World) :
  read__lastFee sender (quoted this sender h l w) = h.
Proof.
  change (read__lastFee sender (quoted this sender h l w))
    with (read__lastFee sender (set__lastFee sender h (push_ciphertexts l w))).
  apply read__lastFee_set_same.
Qed.

Lemma capped_blocks_of_eq (sender : address) (ext : Z) (proof : list Byte.byte)
      (minutes : Z) (w : World) :
  proof <> [] ->
  inputVerifier sender ext proof = Some minutes ->
  1 <= maxBlocks w <= UInt.max 16 ->
  capped_blocks_of inputVerifier sender ext proof w = Some (capped_clear (maxBlocks w) minutes).
Proof.
  intros Hproof Hv Hmb. unfold capped_blocks_of.
  destruct (quote_capped_run inputVerifier sender ext proof minutes w Hproof Hv Hmb)
    as (h & l & Hrun & Hdec & _).
  rewrite Hrun. exact Hdec.
Qed.

Lemma stored_fee_of_eq (sender : address) (ext : Z) (proof : list Byte.byte)
      (minutes : Z) (w : World) :
  proof <> [] ->
  inputVerifier sender ext proof = Some minutes ->
  1 <= maxBlocks w <= UInt.max 16 ->
  stored_fee_of this inputVerifier sender ext proof w =
    Some (UInt.wrap 64 (capped_clear (maxBlocks w) minutes * pricePerBlock w)).
Proof.
  intros Hproof Hv Hmb. unfold stored_fee_of.
  destruct (quote_run this inputVerifier sender ext proof minutes w Hproof Hv Hmb)
    as (h & l & Hrun & Hdec & _).
  rewrite Hrun, read__lastFee_quoted, decrypt_quoted.
  destruct (decide (h = h)) as [_ | ?]; [exact Hdec | congruence].
Qed.

(** C1 (amended).  For a non-empty proof attesting [minutes], with
    [0 < minutes <= 30 * 2^(floor(log2 maxBlocks)+1) - 1] and a policy
    with positive price and cap: the block count before the cap step
    decrypts to [ceil(minutes / 30)], and the fee that [quote] stores for
    the sender decrypts to
    [min(ceil(minutes / 30), maxBlocks) * pricePerBlock] reduced modulo
    2^64, hence to exactly that product whenever it is below 2^64. *)
Theorem quote_fee_end_to_end (sender : address) (ext : Z) (proof : list Byte.byte)
        (minutes : Z) (w : World) :
  proof <> [] ->
  inputVerifier sender ext proof = Some minutes ->
  1 <= maxBlocks w <= UInt.max 16 ->
  0 < pricePerBlock w ->
  0 < minutes <= BLOCK_MINUTES * 2 ^ (Z.log2 (maxBlocks w) + 1) - 1 ->
  (exists (rem : Z) (w1 : World) (blocks : Z) (w2 : World),
      FHE_fromExternal inputVerifier sender ext proof w = Done rem w1 /\
      quote_blocks rem w1 = Done blocks w2 /\
      decrypt w2 blocks = Some (ceil_div minutes BLOCK_MINUTES) /\
      quote_capped inputVerifier sender ext proof w = quote_cap blocks w2) /\
  stored_fee_of this inputVerifier sender ext proof w =
    Some (UInt.wrap 64
            (Z.min (ceil_div minutes BLOCK_MINUTES) (maxBlocks w) * pricePerBlock w)) /\
  (Z.min (ceil_div minutes BLOCK_MINUTES) (maxBlocks w) * pricePerBlock w < 2 ^ 64 ->
   stored_fee_of this inputVerifier sender ext proof w =
     Some (Z.min (ceil_div minutes BLOCK_MINUTES) (maxBlocks w) * pricePerBlock w)).
Proof.
  intros Hproof Hv Hmb Hprice Hmin.
  rewrite <- (_msbPos_log2 _ Hmb) in Hmin.
  pose proof (_msbPos_bounds _ Hmb) as [Hpos _].
  pose proof (pow2_le_16 (_msbPos (maxBlocks w) + 1) ltac:(lia)) as Hpow.
  assert (Hu64 : 0 <= minutes < 2 ^ 64) by (unfold BLOCK_MINUTES in Hmin; lia).
  assert (Hfee := stored_fee_of_eq sender ext proof minutes w Hproof Hv Hmb).
  rewrite capped_clear_min in Hfee by assumption.
  split; [ | split; [exact Hfee | ] ].
  - pose proof (fromExternal_run inputVerifier sender ext proof minutes w Hv) as Hin.
    destruct (quote_blocks_run _ (next_handle w) minutes
                (Hmb : 1 <= maxBlocks (push_ciphertexts
                         [mkCiphertext OpVerifyInput minutes] w) <= UInt.max 16)
                ltac:(eauto with store))
      as (hb & lb & Hrun & Hdec & _).
    cbn [maxBlocks push_ciphertexts] in Hdec.
    rewrite blocks_clear_in_range in Hdec by lia.
    eexists _, _, _, _. split; [exact Hin | ]. split; [exact Hrun | ].
    split; [exact Hdec | ].
    unfold quote_capped. destruct proof as [ | byte proof']; [congruence | ].
    rewrite bool_decide_eq_true_2 by (cbn [length]; lia).
    exec_pure require_true_run.
    erewrite bind_Done by exact Hin.
    erewrite bind_Done by exact Hrun. reflexivity.
  - intros Hsmall. rewrite Hfee. rewrite wrap_small; [reflexivity | ].
    split; [ | exact Hsmall].
    apply Z.mul_nonneg_nonneg; [ | lia].
    unfold ceil_div, BLOCK_MINUTES. apply Z.min_glb; [ | lia].
    apply Z.div_pos; lia.
Qed.

End Quote.

(** Closed goals over the scenarios are settled by evaluation. *)
Ltac evaluate :=
  vm_compute; repeat split;
  first [ reflexivity | discriminate | (let H := fresh in intro H; discriminate H) ].

(** The concrete scenarios of the specification (block size 30, price 50,
    cap 96). *)
Example scenario_1_minute :
  capped_blocks_of Scenario.verifier Scenario.alice 1 Scenario.proof Scenario.sepolia = Some 1 /\
  stored_fee_of Scenario.this Scenario.verifier Scenario.alice 1 Scenario.proof
    Scenario.sepolia = Some 50.
Proof. evaluate. Qed.

Example scenario_30_minutes :
  capped_blocks_of Scenario.verifier Scenario.alice 30 Scenario.proof Scenario.sepolia = Some 1 /\
  stored_fee_of Scenario.this Scenario.verifier Scenario.alice 30 Scenario.proof
    Scenario.sepolia = Some 50.
Proof. evaluate. Qed.

Example scenario_31_minutes :
  capped_blocks_of Scenario.verifier Scenario.alice 31 Scenario.proof Scenario.sepolia = Some 2 /\
  stored_fee_of Scenario.this Scenario.verifier Scenario.alice 31 Scenario.proof
    Scenario.sepolia = Some 100.
Proof. evaluate. Qed.

Example scenario_48_hours :
  capped_blocks_of Scenario.verifier Scenario.alice 2880 Scenario.proof Scenario.sepolia = Some 96 /\
  stored_fee_of Scenario.this Scenario.verifier Scenario.alice 2880 Scenario.proof
    Scenario.sepolia = Some 4800.
Proof. evaluate. Qed.

Example scenario_5000_minutes :
  capped_blocks_of Scenario.verifier Scenario.alice 5000 Scenario.proof Scenario.sepolia = Some 96 /\
  stored_fee_of Scenario.this Scenario.verifier Scenario.alice 5000 Scenario.proof
    Scenario.sepolia = Some 4800.
Proof. evaluate. Qed.

Example scenario_zero_minutes :
  capped_blocks_of Scenario.verifier Scenario.alice 0 Scenario.proof Scenario.sepolia = Some 0 /\
  stored_fee_of Scenario.this Scenario.verifier Scenario.alice 0 Scenario.proof
    Scenario.sepolia = Some 0.
Proof. evaluate. Qed.

Lemma quote_fee_end_to_end_witness :
  (Scenario.proof <> [] /\
   Scenario.verifier Scenario.alice 31 Scenario.proof = Some 31 /\
   1 <= maxBlocks Scenario.sepolia <= UInt.max 16 /\
   0 < pricePerBlock Scenario.sepolia /\
   0 < 31 <= BLOCK_MINUTES * 2 ^ (Z.log2 (maxBlocks Scenario.sepolia) + 1) - 1) /\
  stored_fee_of Scenario.this Scenario.verifier Scenario.alice 31 Scenario.proof
    Scenario.sepolia = Some (UInt.wrap 64 (Z.min (ceil_div 31 BLOCK_MINUTES)
                                                 (maxBlocks Scenario.sepolia)
                                           * pricePerBlock Scenario.sepolia)).
Proof.
  assert (H1 : Scenario.proof <> []) by discriminate.
  assert (H2 : Scenario.verifier Scenario.alice 31 Scenario.proof = Some 31) by reflexivity.
  assert (H3 : 1 <= maxBlocks Scenario.sepolia <= UInt.max 16) by evaluate.
  assert (H4 : 0 < pricePerBlock Scenario.sepolia) by evaluate.
  assert (H5 : 0 < 31 <= BLOCK_MINUTES * 2 ^ (Z.log2 (maxBlocks Scenario.sepolia) + 1) - 1)
    by evaluate.
  split; [auto | ].
  exact (proj1 (proj2 (quote_fee_end_to_end Scenario.this Scenario.verifier
                         Scenario.alice 31 Scenario.proof 31 Scenario.sepolia
                         H1 H2 H3 H4 H5))).
Defined.

(** C1 as stated fails where the product passes 2^64: with a price of 2^63
    and 31 minutes (two blocks) the stored fee decrypts to 0, not to
    [2 * 2^63]. *)
Lemma quote_fee_end_to_end_overflow :
  (Scenario.proof <> [] /\
   Scenario.verifier Scenario.alice 31 Scenario.proof = Some 31 /\
   1 <= maxBlocks Scenario.pricey <= UInt.max 16 /\
   0 < pricePerBlock Scenario.pricey /\
   0 < 31 <= BLOCK_MINUTES * 2 ^ (Z.log2 (maxBlocks Scenario.pricey) + 1) - 1) /\
  stored_fee_of Scenario.this Scenario.verifier Scenario.alice 31 Scenario.proof
    Scenario.pricey = Some 0 /\
  Z.min (ceil_div 31 BLOCK_MINUTES) (maxBlocks Scenario.pricey)
    * pricePerBlock Scenario.pricey = 2 ^ 64 /\
  stored_fee_of Scenario.this Scenario.verifier Scenario.alice 31 Scenario.proof
    Scenario.pricey <>
  Some (Z.min (ceil_div 31 BLOCK_MINUTES) (maxBlocks Scenario.pricey)
        * pricePerBlock Scenario.pricey).
Proof. evaluate. Qed.

(** ** The trace of executor calls *)

Lemma rounds_in_app (a b : list FheOp) : rounds_in (a ++ b) = (rounds_in a + rounds_in b)%nat.
Proof. unfold rounds_in. rewrite filter_app, length_app. reflexivity. Qed.

Lemma rounds_in_ladder_ops (ki : nat) : rounds_in (ladder_ops ki) = ki.
Proof.
  induction ki as [ | ki IH]; [reflexivity | ].
  cbn [ladder_ops]. rewrite rounds_in_app, IH. reflexivity.
Qed.

Lemma rounds_in_quote_ops (ki : nat) : rounds_in (quote_ops ki) = ki.
Proof.
  unfold quote_ops, blocks_ops. rewrite !rounds_in_app, rounds_in_ladder_ops.
  change (rounds_in [OpVerifyInput]) with 0%nat.
  change (rounds_in [OpTrivialEncrypt]) with 0%nat.
  change (rounds_in [OpTrivialEncrypt; OpGt; OpTrivialEncrypt; OpAdd; OpSelect]) with 0%nat.
  change (rounds_in cap_ops) with 0%nat.
  change (rounds_in fee_ops) with 0%nat.
  lia.
Qed.

Lemma appended_quoted (this sender : address) (h : Z) (l : list Ciphertext) (w : World) :
  appended w (quoted this sender h l w) = l.
Proof. unfold appended. cbn. apply drop_app_length. Qed.

Section Blocks.

Variable this : address.
Variable inputVerifier : address -> externalEuint64 -> list Byte.byte -> option Z.

(** C2.  Whenever the attested minutes exceed [maxBlocks * 30], anywhere in
    the [uint64] range (also past the range the ladder can represent), the
    block count that [quote] holds after the cap step decrypts to exactly
    [maxBlocks]. *)
Theorem cap_enforced (sender : address) (ext : Z) (proof : list Byte.byte)
        (minutes : Z) (w : World) :
  proof <> [] ->
  inputVerifier sender ext proof = Some minutes ->
  1 <= maxBlocks w <= UInt.max 16 ->
  0 <= minutes <= UInt.max 64 ->
  maxBlocks w * BLOCK_MINUTES < minutes ->
  capped_blocks_of inputVerifier sender ext proof w = Some (maxBlocks w).
Proof.
  intros Hproof Hv Hmb Hu64 Hbig. unfold UInt.max in Hu64.
  rewrite (capped_blocks_of_eq inputVerifier sender ext proof minutes w Hproof Hv Hmb).
  rewrite capped_clear_min by lia.
  f_equal. apply Z.min_r.
  unfold ceil_div, BLOCK_MINUTES in *. apply Z.div_le_lower_bound; lia.
Qed.

(** C4.  For a fixed policy and any two attested inputs in the [uint64]
    range with [minutes1 < minutes2], the block counts held after the cap
    step satisfy [blocks(minutes1) <= blocks(minutes2)]. *)
Theorem blocks_monotone (sender1 sender2 : address) (ext1 ext2 : Z)
        (proof1 proof2 : list Byte.byte) (minutes1 minutes2 : Z) (w : World) :
  proof1 <> [] -> proof2 <> [] ->
  inputVerifier sender1 ext1 proof1 = Some minutes1 ->
  inputVerifier sender2 ext2 proof2 = Some minutes2 ->
  1 <= maxBlocks w <= UInt.max 16 ->
  0 <= minutes1 -> minutes1 < minutes2 -> minutes2 <= UInt.max 64 ->
  exists b1 b2 : Z,
    capped_blocks_of inputVerifier sender1 ext1 proof1 w = Some b1 /\
    capped_blocks_of inputVerifier sender2 ext2 proof2 w = Some b2 /\
    b1 <= b2.
Proof.
  intros Hp1 Hp2 Hv1 Hv2 Hmb Hlo Hlt Hhi. unfold UInt.max in Hhi.
  rewrite (capped_blocks_of_eq inputVerifier sender1 ext1 proof1 minutes1 w Hp1 Hv1 Hmb).
  rewrite (capped_blocks_of_eq inputVerifier sender2 ext2 proof2 minutes2 w Hp2 Hv2 Hmb).
  rewrite !capped_clear_min by lia.
  eexists _, _. split; [reflexivity | ]. split; [reflexivity | ].
  apply Z.min_le_compat_r, ceil_div_mono. lia.
Qed.

(** C3 (amended).  After the cap the block count lies in [0, maxBlocks],
    and the fee that [quote] stores is the product
    [blocks * pricePerBlock] reduced modulo 2^64.  When the configured
    policy satisfies [maxBlocks * pricePerBlock < 2^64], the product is
    below 2^64, bounded by [maxBlocks * pricePerBlock], and the stored fee
    is the exact product. *)
Theorem fee_product_bounded (sender : address) (ext : Z) (proof : list Byte.byte)
        (minutes : Z) (w : World) :
  proof <> [] ->
  inputVerifier sender ext proof = Some minutes ->
  1 <= maxBlocks w <= UInt.max 16 ->
  1 <= pricePerBlock w <= UInt.max 64 ->
  0 <= minutes <= UInt.max 64 ->
  exists blocks : Z,
    capped_blocks_of inputVerifier sender ext proof w = Some blocks /\
    0 <= blocks <= maxBlocks w /\
    stored_fee_of this inputVerifier sender ext proof w =
      Some (UInt.wrap 64 (blocks * pricePerBlock w)) /\
    (maxBlocks w * pricePerBlock w < 2 ^ 64 ->
     blocks * pricePerBlock w <= maxBlocks w * pricePerBlock w < 2 ^ 64 /\
     stored_fee_of this inputVerifier sender ext proof w =
       Some (blocks * pricePerBlock w)).
Proof.
  intros Hproof Hv Hmb Hprice Hu64. unfold UInt.max in Hu64.
  exists (capped_clear (maxBlocks w) minutes).
  rewrite (capped_blocks_of_eq inputVerifier sender ext proof minutes w Hproof Hv Hmb).
  rewrite (stored_fee_of_eq this inputVerifier sender ext proof minutes w Hproof Hv Hmb).
  assert (Hb : 0 <= capped_clear (maxBlocks w) minutes <= maxBlocks w).
  { rewrite capped_clear_min by lia. split; [ | apply Z.le_min_r].
    apply Z.min_glb; [ | lia].
    unfold ceil_div, BLOCK_MINUTES. apply Z.div_pos; lia. }
  split; [reflexivity | ]. split; [exact Hb | ]. split; [reflexivity | ].
  intros Hsmall.
  assert (Hle : capped_clear (maxBlocks w) minutes * pricePerBlock w
                <= maxBlocks w * pricePerBlock w)
    by (apply Z.mul_le_mono_nonneg_r; lia).
  split; [lia | ].
  rewrite wrap_small; [reflexivity | ].
  split; [apply Z.mul_nonneg_nonneg; lia | lia].
Qed.

(** C5.  For [1 <= maxBlocks <= 65535], [_msbPos maxBlocks] is
    [floor(log2 maxBlocks)], the position of the highest set bit.  A
    completed [quote] issues the executor calls [quote_ops], a list fixed
    by [_msbPos maxBlocks] alone whatever minutes the input carries; it
    contains exactly [_msbPos maxBlocks + 1] ladder rounds, at most 16. *)
Theorem ladder_rounds_fixed (sender : address) (ext : Z) (proof : list Byte.byte)
        (minutes : Z) (w : World) :
  proof <> [] ->
  inputVerifier sender ext proof = Some minutes ->
  1 <= maxBlocks w <= UInt.max 16 ->
  _msbPos (maxBlocks w) = Z.log2 (maxBlocks w) /\
  2 ^ _msbPos (maxBlocks w) <= maxBlocks w < 2 ^ (_msbPos (maxBlocks w) + 1) /\
  exists (h : Z) (w' : World),
    quote this inputVerifier sender ext proof w = Done h w' /\
    map made_by (appended w w') = quote_ops (Z.to_nat (_msbPos (maxBlocks w) + 1)) /\
    Z.of_nat (rounds_in (map made_by (appended w w'))) = _msbPos (maxBlocks w) + 1 /\
    (rounds_in (map made_by (appended w w')) <= 16)%nat.
Proof.
  intros Hproof Hv Hmb.
  split; [apply _msbPos_log2; exact Hmb | ].
  split; [apply _msbPos_bounds; exact Hmb | ].
  destruct (ladder_rounds_of _ Hmb) as [Hk Hk16].
  destruct (quote_run this inputVerifier sender ext proof minutes w Hproof Hv Hmb)
    as (h & l & Hrun & _ & Hops & _).
  exists h, (quoted this sender h l w).
  rewrite appended_quoted, Hops, rounds_in_quote_ops.
  auto.
Qed.

End Blocks.

(** ** The scenarios are reachable *)

Lemma sepolia_reachable : reachable Scenario.this Scenario.verifier Scenario.sepolia.
Proof.
  apply (reachable_deploy Scenario.this Scenario.verifier Scenario.authority 50 96);
    evaluate.
Qed.

Lemma pricey_reachable : reachable Scenario.this Scenario.verifier Scenario.pricey.
Proof.
  apply (reachable_deploy Scenario.this Scenario.verifier Scenario.authority (2 ^ 63) 96);
    evaluate.
Qed.

Lemma cap_enforced_witness :
  (Scenario.proof <> [] /\
   Scenario.verifier Scenario.alice 5000 Scenario.proof = Some 5000 /\
   1 <= maxBlocks Scenario.sepolia <= UInt.max 16 /\
   0 <= 5000 <= UInt.max 64 /\
   maxBlocks Scenario.sepolia * BLOCK_MINUTES < 5000) /\
  capped_blocks_of Scenario.verifier Scenario.alice 5000 Scenario.proof Scenario.sepolia
    = Some (maxBlocks Scenario.sepolia).
Proof.
  assert (H1 : Scenario.proof <> []) by discriminate.
  assert (H2 : Scenario.verifier Scenario.alice 5000 Scenario.proof = Some 5000)
    by reflexivity.
  assert (H3 : 1 <= maxBlocks Scenario.sepolia <= UInt.max 16) by evaluate.
  assert (H4 : 0 <= 5000 <= UInt.max 64) by evaluate.
  assert (H5 : maxBlocks Scenario.sepolia * BLOCK_MINUTES < 5000) by evaluate.
  split; [auto | ].
  exact (cap_enforced Scenario.verifier Scenario.alice 5000 Scenario.proof 5000
           Scenario.sepolia H1 H2 H3 H4 H5).
Defined.

Lemma blocks_monotone_witness :
  (Scenario.proof <> [] /\
   Scenario.verifier Scenario.alice 30 Scenario.proof = Some 30 /\
   Scenario.verifier Scenario.bob 31 Scenario.proof = Some 31 /\
   1 <= maxBlocks Scenario.sepolia <= UInt.max 16 /\
   0 <= 30 /\ 30 < 31 /\ 31 <= UInt.max 64) /\
  exists b1 b2 : Z,
    capped_blocks_of Scenario.verifier Scenario.alice 30 Scenario.proof Scenario.sepolia
      = Some b1 /\
    capped_blocks_of Scenario.verifier Scenario.bob 31 Scenario.proof Scenario.sepolia
      = Some b2 /\
    b1 <= b2.
Proof.
  assert (H1 : Scenario.proof <> []) by discriminate.
  assert (H2 : Scenario.verifier Scenario.alice 30 Scenario.proof = Some 30) by reflexivity.
  assert (H3 : Scenario.verifier Scenario.bob 31 Scenario.proof = Some 31) by reflexivity.
  assert (H4 : 1 <= maxBlocks Scenario.sepolia <= UInt.max 16) by evaluate.
  assert (H5 : 0 <= 30) by lia.
  assert (H6 : 30 < 31) by lia.
  assert (H7 : 31 <= UInt.max 64) by evaluate.
  split; [auto 10 | ].
  exact (blocks_monotone Scenario.verifier Scenario.alice Scenario.bob 30 31
           Scenario.proof Scenario.proof 30 31 Scenario.sepolia H1 H1 H2 H3 H4 H5 H6 H7).
Defined.

Lemma fee_product_bounded_witness :
  (Scenario.proof <> [] /\
   Scenario.verifier Scenario.alice 2880 Scenario.proof = Some 2880 /\
   1 <= maxBlocks Scenario.sepolia <= UInt.max 16 /\
   1 <= pricePerBlock Scenario.sepolia <= UInt.max 64 /\
   0 <= 2880 <= UInt.max 64) /\
  exists blocks : Z,
    capped_blocks_of Scenario.verifier Scenario.alice 2880 Scenario.proof Scenario.sepolia
      = Some blocks /\
    0 <= blocks <= maxBlocks Scenario.sepolia /\
    stored_fee_of Scenario.this Scenario.verifier Scenario.alice 2880 Scenario.proof
      Scenario.sepolia = Some (UInt.wrap 64 (blocks * pricePerBlock Scenario.sepolia)) /\
    (maxBlocks Scenario.sepolia * pricePerBlock Scenario.sepolia < 2 ^ 64 ->
     blocks * pricePerBlock Scenario.sepolia
       <= maxBlocks Scenario.sepolia * pricePerBlock Scenario.sepolia < 2 ^ 64 /\
     stored_fee_of Scenario.this Scenario.verifier Scenario.alice 2880 Scenario.proof
       Scenario.sepolia = Some (blocks * pricePerBlock Scenario.sepolia)).
Proof.
  assert (H1 : Scenario.proof <> []) by discriminate.
  assert (H2 : Scenario.verifier Scenario.alice 2880 Scenario.proof = Some 2880)
    by reflexivity.
  assert (H3 : 1 <= maxBlocks Scenario.sepolia <= UInt.max 16) by evaluate.
  assert (H4 : 1 <= pricePerBlock Scenario.sepolia <= UInt.max 64) by evaluate.
  assert (H5 : 0 <= 2880 <= UInt.max 64) by evaluate.
  split; [auto | ].
  exact (fee_product_bounded Scenario.this Scenario.verifier Scenario.alice 2880
           Scenario.proof 2880 Scenario.sepolia H1 H2 H3 H4 H5).
Defined.

(** C3 as stated fails: a price of 2^63 is a configured [uint64], the
    capped count for 5000 minutes is 96, the product [96 * 2^63] is not
    below 2^64, and the modular multiply stores 0 instead of it. *)
Lemma fee_product_overflow :
  reachable Scenario.this Scenario.verifier Scenario.pricey /\
  1 <= pricePerBlock Scenario.pricey <= UInt.max 64 /\
  capped_blocks_of Scenario.verifier Scenario.alice 5000 Scenario.proof Scenario.pricey
    = Some 96 /\
  96 <= maxBlocks Scenario.pricey /\
  ~ (96 * pricePerBlock Scenario.pricey < 2 ^ 64) /\
  stored_fee_of Scenario.this Scenario.verifier Scenario.alice 5000 Scenario.proof
    Scenario.pricey = Some 0 /\
  stored_fee_of Scenario.this Scenario.verifier Scenario.alice 5000 Scenario.proof
    Scenario.pricey <> Some (96 * pricePerBlock Scenario.pricey).
Proof. split; [exact pricey_reachable | evaluate]. Qed.

Lemma ladder_rounds_fixed_witness :
  (Scenario.proof <> [] /\
   Scenario.verifier Scenario.alice 31 Scenario.proof = Some 31 /\
   1 <= maxBlocks Scenario.sepolia <= UInt.max 16) /\
  _msbPos (maxBlocks Scenario.sepolia) = Z.log2 (maxBlocks Scenario.sepolia) /\
  2 ^ _msbPos (maxBlocks Scenario.sepolia) <= maxBlocks Scenario.sepolia
    < 2 ^ (_msbPos (maxBlocks Scenario.sepolia) + 1) /\
  exists (h : Z) (w' : World),
    quote Scenario.this Scenario.verifier Scenario.alice 31 Scenario.proof
      Scenario.sepolia = Done h w' /\
    map made_by (appended Scenario.sepolia w')
      = quote_ops (Z.to_nat (_msbPos (maxBlocks Scenario.sepolia) + 1)) /\
    Z.of_nat (rounds_in (map made_by (appended Scenario.sepolia w')))
      = _msbPos (maxBlocks Scenario.sepolia) + 1 /\
    (rounds_in (map made_by (appended Scenario.sepolia w')) <= 16)%nat.
Proof.
  assert (H1 : Scenario.proof <> []) by discriminate.
  assert (H2 : Scenario.verifier Scenario.alice 31 Scenario.proof = Some 31) by reflexivity.
  assert (H3 : 1 <= maxBlocks Scenario.sepolia <= UInt.max 16) by evaluate.
  split; [auto | ].
  exact (ladder_rounds_fixed Scenario.this Scenario.verifier Scenario.alice 31
           Scenario.proof 31 Scenario.sepolia H1 H2 H3).
Defined.

(** ** Authorization and the pricing invariant *)

(** C6.  A call to [setPricePerBlock], [setMaxBlocks] or
    [transferOwnership] from an identity other than the current authority
    reverts with "Not owner" (NotAuthorizedError) before anything is
    written, and the call leaves the state, hence [pricePerBlock],
    [maxBlocks] and [owner], as it was. *)
Theorem stranger_rejected (sender : address) (p m : Z) (n : address) (w : World) :
  sender <> owner w ->
  classify Not_owner = Some NotAuthorizedError /\
  (setPricePerBlock sender p w = Reverted Not_owner w /\
   external_call (setPricePerBlock sender p) w = (w, Failure Not_owner)) /\
  (setMaxBlocks sender m w = Reverted Not_owner w /\
   external_call (setMaxBlocks sender m) w = (w, Failure Not_owner)) /\
  (transferOwnership sender n w = Reverted Not_owner w /\
   external_call (transferOwnership sender n) w = (w, Failure Not_owner)).
Proof.
  intros Hs. unfold external_call.
  rewrite setPricePerBlock_cases, setMaxBlocks_cases, transferOwnership_cases.
  destruct (decide (sender = owner w)) as [? | _]; [contradiction | ].
  auto 10.
Qed.

Lemma stranger_rejected_witness :
  Scenario.bob <> owner Scenario.sepolia /\
  classify Not_owner = Some NotAuthorizedError /\
  (setPricePerBlock Scenario.bob 75 Scenario.sepolia = Reverted Not_owner Scenario.sepolia /\
   external_call (setPricePerBlock Scenario.bob 75) Scenario.sepolia
     = (Scenario.sepolia, Failure Not_owner)) /\
  (setMaxBlocks Scenario.bob 48 Scenario.sepolia = Reverted Not_owner Scenario.sepolia /\
   external_call (setMaxBlocks Scenario.bob 48) Scenario.sepolia
     = (Scenario.sepolia, Failure Not_owner)) /\
  (transferOwnership Scenario.bob Scenario.bob Scenario.sepolia
     = Reverted Not_owner Scenario.sepolia /\
   external_call (transferOwnership Scenario.bob Scenario.bob) Scenario.sepolia
     = (Scenario.sepolia, Failure Not_owner)).
Proof.
  assert (H1 : Scenario.bob <> owner Scenario.sepolia) by evaluate.
  split; [exact H1 | ].
  exact (stranger_rejected Scenario.bob 75 48 Scenario.bob Scenario.sepolia H1).
Defined.

Section Invariant.

Variable this : address.
Variable inputVerifier : address -> externalEuint64 -> list Byte.byte -> option Z.

Lemma step_keeps_price (caller : address) (c : Call) (w : World) :
  Inv w -> (forall p : Z, c <> Call_setPricePerBlock p) ->
  pricePerBlock (step this inputVerifier caller c w) = pricePerBlock w.
Proof.
  intros HI Hc. destruct c as [n | p | m | | ext proof]; cbn [step]; unfold external_call.
  - rewrite transferOwnership_cases. repeat case_decide; reflexivity.
  - contradiction (Hc p). reflexivity.
  - rewrite setMaxBlocks_cases. repeat case_decide; reflexivity.
  - reflexivity.
  - destruct (quote_cases this inputVerifier caller ext proof w HI)
      as [(h & minutes & l & _ & _ & Hrun & _) | (e & w' & Hrun)];
      rewrite Hrun; reflexivity.
Qed.

Lemma step_keeps_maxBlocks (caller : address) (c : Call) (w : World) :
  Inv w -> (forall m : Z, c <> Call_setMaxBlocks m) ->
  maxBlocks (step this inputVerifier caller c w) = maxBlocks w.
Proof.
  intros HI Hc. destruct c as [n | p | m | | ext proof]; cbn [step]; unfold external_call.
  - rewrite transferOwnership_cases. repeat case_decide; reflexivity.
  - rewrite setPricePerBlock_cases. repeat case_decide; reflexivity.
  - contradiction (Hc m). reflexivity.
  - reflexivity.
  - destruct (quote_cases this inputVerifier caller ext proof w HI)
      as [(h & minutes & l & _ & _ & Hrun & _) | (e & w' & Hrun)];
      rewrite Hrun; reflexivity.
Qed.

(** C7.  In every reachable state [pricePerBlock > 0] and
    [maxBlocks > 0]: deployment completes exactly when both initial values
    are positive and otherwise fails with InvalidPolicyError; called by the
    current authority, [setPricePerBlock] and [setMaxBlocks] revert with
    InvalidPolicyError on a zero argument and [transferOwnership] reverts
    with InvalidPolicyError on the zero identity, each leaving the state as
    it was; and no call other than [setPricePerBlock] changes
    [pricePerBlock], none other than [setMaxBlocks] changes [maxBlocks]. *)
Theorem pricing_invariant (sender : address) (w : World) :
  reachable this inputVerifier w ->
  sender = owner w ->
  (0 < pricePerBlock w /\ 0 < maxBlocks w) /\
  (forall (d : address) (p m : Z),
      (0 < p /\ 0 < m -> exists w0 : World, deploy d p m = (w0, Success tt)) /\
      (~ (0 < p /\ 0 < m) ->
       exists e : Error, deploy d p m = (genesis, Failure e) /\
                         classify e = Some InvalidPolicyError)) /\
  (setPricePerBlock sender 0 w = Reverted price_0 w /\
   external_call (setPricePerBlock sender 0) w = (w, Failure price_0) /\
   classify price_0 = Some InvalidPolicyError) /\
  (setMaxBlocks sender 0 w = Reverted maxBlocks_0 w /\
   external_call (setMaxBlocks sender 0) w = (w, Failure maxBlocks_0) /\
   classify maxBlocks_0 = Some InvalidPolicyError) /\
  (transferOwnership sender 0 w = Reverted Zero_owner w /\
   external_call (transferOwnership sender 0) w = (w, Failure Zero_owner) /\
   classify Zero_owner = Some InvalidPolicyError) /\
  (forall (caller : address) (c : Call),
      ((forall p : Z, c <> Call_setPricePerBlock p) ->
       pricePerBlock (step this inputVerifier caller c w) = pricePerBlock w) /\
      ((forall m : Z, c <> Call_setMaxBlocks m) ->
       maxBlocks (step this inputVerifier caller c w) = maxBlocks w)).
Proof.
  intros Hreach Hs. pose proof (reachable_Inv _ _ _ Hreach) as HI.
  pose proof HI as [Hp Hm _].
  split; [lia | ].
  split.
  { intros d p m. unfold deploy, external_call. rewrite constructor_cases.
    split.
    - intros [Hp0 Hm0]. repeat case_decide; try lia. eauto.
    - intros Hno. repeat case_decide; try lia; eauto. }
  unfold external_call.
  rewrite setPricePerBlock_cases, setMaxBlocks_cases, transferOwnership_cases.
  destruct (decide (sender = owner w)) as [_ | ?]; [ | contradiction].
  destruct (decide (0 < 0)) as [? | _]; [lia | ].
  destruct (decide (0 <> 0)) as [? | _]; [lia | ].
  do 3 (split; [repeat split; reflexivity | ]).
  intros caller c. split.
  - apply step_keeps_price. exact HI.
  - apply step_keeps_maxBlocks. exact HI.
Qed.

End Invariant.

Lemma pricing_invariant_witness :
  (reachable Scenario.this Scenario.verifier Scenario.sepolia /\
   Scenario.authority = owner Scenario.sepolia) /\
  (0 < pricePerBlock Scenario.sepolia /\ 0 < maxBlocks Scenario.sepolia) /\
  setPricePerBlock Scenario.authority 0 Scenario.sepolia
    = Reverted price_0 Scenario.sepolia.
Proof.
  assert (H1 : Scenario.authority = owner Scenario.sepolia) by reflexivity.
  split; [split; [exact sepolia_reachable | exact H1] | ].
  pose proof (pricing_invariant Scenario.this Scenario.verifier Scenario.authority
                Scenario.sepolia sepolia_reachable H1) as (Hpos & _ & (Hprice & _) & _).
  split; [exact Hpos | exact Hprice].
Defined.

(** The ownership check comes first: a zero price from an identity that is
    not the authority is answered with "Not owner" (NotAuthorizedError). *)
Example zero_price_from_stranger :
  reachable Scenario.this Scenario.verifier Scenario.sepolia /\
  setPricePerBlock Scenario.bob 0 Scenario.sepolia = Reverted Not_owner Scenario.sepolia /\
  external_call (setPricePerBlock Scenario.bob 0) Scenario.sepolia
    = (Scenario.sepolia, Failure Not_owner) /\
  classify Not_owner = Some NotAuthorizedError /\
  classify Not_owner <> Some InvalidPolicyError.
Proof. split; [exact sepolia_reachable | evaluate]. Qed.

(** ** Custody of results *)

(** C8.  [quote] with an empty proof reverts with "Empty proof"
    (InvalidProofError) in the very state it was called in: no result is
    stored or overwritten, no access is granted, no event is emitted, and
    the call leaves the state as it was. *)
Theorem empty_proof_rejected (this : address)
        (inputVerifier : address -> externalEuint64 -> list Byte.byte -> option Z)
        (sender : address) (ext : Z) (w : World) :
  quote this inputVerifier sender ext [] w = Reverted Empty_proof w /\
  external_call (quote this inputVerifier sender ext []) w = (w, Failure Empty_proof) /\
  step this inputVerifier sender (Call_quote ext []) w = w /\
  classify Empty_proof = Some InvalidProofError.
Proof. repeat split; reflexivity. Qed.

Section Custody.

Variable this : address.
Variable inputVerifier : address -> externalEuint64 -> list Byte.byte -> option Z.



Lemma run_keeps_unset (a : address) (txs : list (address * Call)) : forall w : World,
  Inv w -> Forall (fun tx => well_typed tx.2) txs ->
  _lastFee w !! a = None ->
  has_quoted this inputVerifier a txs w = false ->
  _lastFee (run this inputVerifier txs w) !! a = None.
Proof.
  induction txs as [ | [sender c] txs IH]; intros w HI Htxs Hnone Hq; [exact Hnone | ].
  cbn [run has_quoted] in *. inversion Htxs as [ | ? ? Hc Hrest]; subst.
  apply orb_false_iff in Hq as [Hnow Hlater].
  apply IH; [apply Inv_step; assumption | exact Hrest | | exact Hlater].
  destruct c as [n | p | m | | ext proof]; cbn [step]; unfold external_call.
  - rewrite transferOwnership_cases. repeat case_decide; exact Hnone.
  - rewrite setPricePerBlock_cases. repeat case_decide; exact Hnone.
  - rewrite setMaxBlocks_cases. repeat case_decide; exact Hnone.
  - exact Hnone.
  - destruct (quote_cases this inputVerifier sender ext proof w HI)
      as [(h & minutes & l & _ & _ & Hrun & _) | (e & w' & Hrun)];
      rewrite Hrun in Hnow |- *; [ | exact Hnone].
    apply bool_decide_eq_false in Hnow.
    unfold quoted. cbn. rewrite lookup_insert_ne by exact Hnow. exact Hnone.
Qed.

(** C10.  After any history of calls on a deployed contract in which the
    identity [a] never completed a [quote], [getMyFeeHandle] called by [a]
    does not fail, changes nothing, and returns [0], the handle of the
    uninitialised ciphertext. *)
Theorem unset_handle_is_zero (deployer : address) (p m : Z) (w0 : World)
        (txs : list (address * Call)) (a : address) :
  UInt.In 64 p -> UInt.In 16 m ->
  deploy deployer p m = (w0, Success tt) ->
  Forall (fun tx => well_typed tx.2) txs ->
  has_quoted this inputVerifier a txs w0 = false ->
  external_call (getMyFeeHandle a) (run this inputVerifier txs w0)
    = (run this inputVerifier txs w0, Success 0).
Proof.
  intros Hp Hm Hdeploy Htxs Hq.
  pose proof (Inv_deploy deployer p m w0 Hp Hm Hdeploy) as HI.
  assert (Hnone : _lastFee w0 !! a = None).
  { revert Hdeploy. unfold deploy, external_call. rewrite constructor_cases.
    repeat case_decide; intros [= <-]. cbn. apply lookup_empty. }
  pose proof (run_keeps_unset a txs w0 HI Htxs Hnone Hq) as Hend.
  unfold external_call. rewrite getMyFeeHandle_run.
  unfold read__lastFee. rewrite Hend. reflexivity.
Qed.

End Custody.


Lemma unset_handle_is_zero_witness :
  (UInt.In 64 50 /\ UInt.In 16 96 /\
   deploy Scenario.authority 50 96 = (Scenario.sepolia, Success tt) /\
   Forall (fun tx : address * Call => well_typed tx.2)
     [(Scenario.alice, Call_quote 31 Scenario.proof);
      (Scenario.bob, Call_quote 31 []);
      (Scenario.authority, Call_setMaxBlocks 48)] /\
   has_quoted Scenario.this Scenario.verifier Scenario.bob
     [(Scenario.alice, Call_quote 31 Scenario.proof);
      (Scenario.bob, Call_quote 31 []);
      (Scenario.authority, Call_setMaxBlocks 48)] Scenario.sepolia = false) /\
  external_call (getMyFeeHandle Scenario.bob)
    (run Scenario.this Scenario.verifier
       [(Scenario.alice, Call_quote 31 Scenario.proof);
        (Scenario.bob, Call_quote 31 []);
        (Scenario.authority, Call_setMaxBlocks 48)] Scenario.sepolia)
  = (run Scenario.this Scenario.verifier
       [(Scenario.alice, Call_quote 31 Scenario.proof);
        (Scenario.bob, Call_quote 31 []);
        (Scenario.authority, Call_setMaxBlocks 48)] Scenario.sepolia, Success 0).
Proof.
  assert (H1 : UInt.In 64 50) by evaluate.
  assert (H2 : UInt.In 16 96) by evaluate.
  assert (H3 : deploy Scenario.authority 50 96 = (Scenario.sepolia, Success tt))
    by (vm_compute; reflexivity).
  assert (H4 : Forall (fun tx : address * Call => well_typed tx.2)
                 [(Scenario.alice, Call_quote 31 Scenario.proof);
                  (Scenario.bob, Call_quote 31 []);
                  (Scenario.authority, Call_setMaxBlocks 48)])
    by (repeat constructor; evaluate).
  assert (H5 : has_quoted Scenario.this Scenario.verifier Scenario.bob
                 [(Scenario.alice, Call_quote 31 Scenario.proof);
                  (Scenario.bob, Call_quote 31 []);
                  (Scenario.authority, Call_setMaxBlocks 48)] Scenario.sepolia = false)
    by (vm_compute; reflexivity).
  split; [auto 10 | ].
  exact (unset_handle_is_zero Scenario.this Scenario.verifier Scenario.authority 50 96
           Scenario.sepolia _ Scenario.bob H1 H2 H3 H4 H5).
Defined.

(** * Further properties of the contract *)

Lemma length_ladder_ops (ki : nat) : length (ladder_ops ki) = (8 * ki)%nat.
Proof.
  induction ki as [ | ki IH]; [reflexivity | ].
  cbn [ladder_ops]. rewrite length_app, IH. cbn [round_ops length]. lia.
Qed.

Lemma length_quote_ops (ki : nat) : length (quote_ops ki) = (8 * ki + 13)%nat.
Proof.
  unfold quote_ops, blocks_ops. rewrite !length_app, length_ladder_ops.
  cbn [length cap_ops fee_ops]. lia.
Qed.

Section Arithmetic.

Variable this : address.
Variable inputVerifier : address -> externalEuint64 -> list Byte.byte -> option Z.

Lemma quote_uncapped_run (sender : address) (ext : Z) (proof : list Byte.byte)
      (minutes : Z) (w : World) :
  proof <> [] ->
  inputVerifier sender ext proof = Some minutes ->
  1 <= maxBlocks w <= UInt.max 16 ->
  exists (h : Z) (l : list Ciphertext),
    quote_uncapped inputVerifier sender ext proof w = Done h (push_ciphertexts l w) /\
    decrypt (push_ciphertexts l w) h = Some (blocks_clear (maxBlocks w) minutes).
Proof.
  intros Hproof Hv Hmb. unfold quote_uncapped.
  destruct proof as [ | byte proof']; [congruence | ].
  rewrite bool_decide_eq_true_2 by (cbn [length]; lia).
  exec_pure require_true_run.
  exec_pure fromExternal_run; [ | exact Hv].
  match goal with
  | |- context [quote_blocks ?rem1 ?w1] =>
      destruct (quote_blocks_run w1 rem1 minutes Hmb ltac:(eauto with store))
        as (hb & lb & Hrun & Hdec & _)
  end.
  rewrite Hrun. cbn [maxBlocks push_ciphertexts] in Hdec.
  rewrite push_push in Hdec |- *.
  eexists _, _. split; [reflexivity | exact Hdec].
Qed.

(** X1.  Over the whole [uint64] range the block count held after the cap
    is [min(ceil(minutes / 30), maxBlocks)]. *)
Theorem capped_blocks_closed_form (sender : address) (ext : Z) (proof : list Byte.byte)
        (minutes : Z) (w : World) :
  proof <> [] ->
  inputVerifier sender ext proof = Some minutes ->
  1 <= maxBlocks w <= UInt.max 16 ->
  0 <= minutes <= UInt.max 64 ->
  capped_blocks_of inputVerifier sender ext proof w
    = Some (Z.min (ceil_div minutes BLOCK_MINUTES) (maxBlocks w)).
Proof.
  intros Hproof Hv Hmb Hu64. unfold UInt.max in Hu64.
  rewrite (capped_blocks_of_eq inputVerifier sender ext proof minutes w Hproof Hv Hmb).
  rewrite capped_clear_min by lia. reflexivity.
Qed.

(** X2.  Past the range of the ladder, from [30 * 2^(kMax+1)] minutes on,
    the count before the cap is [2^(kMax+1)]: every quotient bit is set
    and the ceiling step adds one.  That value is above [maxBlocks], so the
    cap always applies to it. *)
Theorem ladder_saturates (sender : address) (ext : Z) (proof : list Byte.byte)
        (minutes : Z) (w : World) :
  proof <> [] ->
  inputVerifier sender ext proof = Some minutes ->
  1 <= maxBlocks w <= UInt.max 16 ->
  BLOCK_MINUTES * 2 ^ (Z.log2 (maxBlocks w) + 1) <= minutes <= UInt.max 64 ->
  uncapped_blocks_of inputVerifier sender ext proof w
    = Some (2 ^ (Z.log2 (maxBlocks w) + 1)) /\
  maxBlocks w < 2 ^ (Z.log2 (maxBlocks w) + 1).
Proof.
  intros Hproof Hv Hmb Hmin. unfold UInt.max in Hmin.
  rewrite <- (_msbPos_log2 _ Hmb) in *.
  pose proof (_msbPos_bounds _ Hmb) as [_ Hlog].
  split; [ | lia]. unfold uncapped_blocks_of.
  destruct (quote_uncapped_run sender ext proof minutes w Hproof Hv Hmb)
    as (h & l & Hrun & Hdec).
  rewrite Hrun, Hdec. rewrite blocks_clear_saturated by lia. reflexivity.
Qed.

(** X3.  The contract does not reject a zero duration: for an attested
    input of 0 minutes [quote] completes, holds 0 blocks and stores a fee
    that decrypts to 0. *)
Theorem zero_minutes_accepted (sender : address) (ext : Z) (proof : list Byte.byte)
        (w : World) :
  proof <> [] ->
  inputVerifier sender ext proof = Some 0 ->
  1 <= maxBlocks w <= UInt.max 16 ->
  (exists (h : Z) (w' : World),
      quote this inputVerifier sender ext proof w = Done h w') /\
  capped_blocks_of inputVerifier sender ext proof w = Some 0 /\
  stored_fee_of this inputVerifier sender ext proof w = Some 0.
Proof.
  intros Hproof Hv Hmb.
  assert (Hzero : capped_clear (maxBlocks w) 0 = 0).
  { rewrite capped_clear_min by lia. unfold ceil_div, BLOCK_MINUTES.
    change ((0 + 30 - 1) / 30) with 0. lia. }
  split; [ | split].
  - destruct (quote_run this inputVerifier sender ext proof 0 w Hproof Hv Hmb)
      as (h & l & Hrun & _). eauto.
  - rewrite (capped_blocks_of_eq inputVerifier sender ext proof 0 w Hproof Hv Hmb).
    rewrite Hzero. reflexivity.
  - rewrite (stored_fee_of_eq this inputVerifier sender ext proof 0 w Hproof Hv Hmb).
    rewrite Hzero. reflexivity.
Qed.

(** X4.  Any positive duration is billed at least one block: for
    [0 < minutes] the capped count is between 1 and [maxBlocks], and when
    [maxBlocks * pricePerBlock < 2^64] the stored fee lies between
    [pricePerBlock] and [maxBlocks * pricePerBlock]. *)
Theorem positive_duration_billed (sender : address) (ext : Z) (proof : list Byte.byte)
        (minutes : Z) (w : World) :
  proof <> [] ->
  inputVerifier sender ext proof = Some minutes ->
  1 <= maxBlocks w <= UInt.max 16 ->
  1 <= pricePerBlock w ->
  0 < minutes <= UInt.max 64 ->
  maxBlocks w * pricePerBlock w < 2 ^ 64 ->
  exists blocks fee : Z,
    capped_blocks_of inputVerifier sender ext proof w = Some blocks /\
    stored_fee_of this inputVerifier sender ext proof w = Some fee /\
    1 <= blocks <= maxBlocks w /\
    fee = blocks * pricePerBlock w /\
    pricePerBlock w <= fee <= maxBlocks w * pricePerBlock w.
Proof.
  intros Hproof Hv Hmb Hprice Hmin Hsmall. unfold UInt.max in Hmin.
  rewrite (capped_blocks_of_eq inputVerifier sender ext proof minutes w Hproof Hv Hmb).
  rewrite (stored_fee_of_eq this inputVerifier sender ext proof minutes w Hproof Hv Hmb).
  assert (Hb : 1 <= capped_clear (maxBlocks w) minutes <= maxBlocks w).
  { rewrite capped_clear_min by lia. split; [ | apply Z.le_min_r].
    apply Z.min_glb; [ | lia].
    unfold ceil_div, BLOCK_MINUTES. apply Z.div_le_lower_bound; lia. }
  set (b := capped_clear (maxBlocks w) minutes) in *.
  assert (Hle : b * pricePerBlock w <= maxBlocks w * pricePerBlock w)
    by (apply Z.mul_le_mono_nonneg_r; lia).
  assert (Hge : 1 * pricePerBlock w <= b * pricePerBlock w)
    by (apply Z.mul_le_mono_nonneg_r; lia).
  exists b, (b * pricePerBlock w).
  split; [reflexivity | ].
  split; [rewrite wrap_small by lia; reflexivity | ].
  split; [exact Hb | ]. split; [reflexivity | lia].
Qed.

(** X5.  Rounding at block boundaries: an exact multiple [30 * q] of the
    block size is not rounded up and holds [min(q, maxBlocks)] blocks; one
    minute more holds [min(q + 1, maxBlocks)]. *)
Theorem block_boundaries (sender : address) (ext1 ext2 : Z) (proof1 proof2 : list Byte.byte)
        (q : Z) (w : World) :
  proof1 <> [] -> proof2 <> [] ->
  inputVerifier sender ext1 proof1 = Some (BLOCK_MINUTES * q) ->
  inputVerifier sender ext2 proof2 = Some (BLOCK_MINUTES * q + 1) ->
  1 <= maxBlocks w <= UInt.max 16 ->
  0 <= q -> BLOCK_MINUTES * q + 1 <= UInt.max 64 ->
  capped_blocks_of inputVerifier sender ext1 proof1 w = Some (Z.min q (maxBlocks w)) /\
  capped_blocks_of inputVerifier sender ext2 proof2 w = Some (Z.min (q + 1) (maxBlocks w)).
Proof.
  intros Hp1 Hp2 Hv1 Hv2 Hmb Hq Hhi. unfold UInt.max in Hhi.
  rewrite (capped_blocks_of_eq inputVerifier sender ext1 proof1 _ w Hp1 Hv1 Hmb).
  rewrite (capped_blocks_of_eq inputVerifier sender ext2 proof2 _ w Hp2 Hv2 Hmb).
  unfold BLOCK_MINUTES in Hhi.
  rewrite !capped_clear_min by (unfold BLOCK_MINUTES; lia).
  unfold ceil_div, BLOCK_MINUTES.
  assert (H1 : (30 * q + 30 - 1) / 30 = q) by (Z.div_mod_to_equations; lia).
  assert (H2 : (30 * q + 1 + 30 - 1) / 30 = q + 1) by (Z.div_mod_to_equations; lia).
  rewrite H1, H2. split; reflexivity.
Qed.

(** X6.  In a state whose cap fits [uint16], [quote] has exactly two ways
    to fail, both before anything is written: an empty proof and a
    rejected attestation, checked in that order.  With a non-empty,
    attested input it always completes, whatever value the input carries:
    the checked arithmetic of the ladder never overflows. *)
Theorem quote_failure_modes (sender : address) (ext : Z) (proof : list Byte.byte)
        (w : World) :
  1 <= maxBlocks w <= UInt.max 16 ->
  (proof = [] ->
   quote this inputVerifier sender ext proof w = Reverted Empty_proof w) /\
  (proof <> [] -> inputVerifier sender ext proof = None ->
   quote this inputVerifier sender ext proof w = Reverted Invalid_input_proof w) /\
  (proof <> [] -> forall minutes : Z, inputVerifier sender ext proof = Some minutes ->
   exists (h : Z) (w' : World), quote this inputVerifier sender ext proof w = Done h w') /\
  (forall (e : Error) (w' : World),
      quote this inputVerifier sender ext proof w = Reverted e w' ->
      (e = Empty_proof \/ e = Invalid_input_proof) /\ w' = w).
Proof.
  intros Hmb.
  assert (Hempty : proof = [] ->
            quote this inputVerifier sender ext proof w = Reverted Empty_proof w)
    by (intros ->; reflexivity).
  assert (Hbad : proof <> [] -> inputVerifier sender ext proof = None ->
            quote this inputVerifier sender ext proof w = Reverted Invalid_input_proof w).
  { intros Hproof Hv. destruct proof as [ | byte proof']; [congruence | ].
    unfold quote, quote_capped, FHE_fromExternal. rewrite Hv. reflexivity. }
  assert (Hgood : proof <> [] -> forall minutes : Z,
            inputVerifier sender ext proof = Some minutes ->
            exists (h : Z) (w' : World),
              quote this inputVerifier sender ext proof w = Done h w').
  { intros Hproof minutes Hv.
    destruct (quote_run this inputVerifier sender ext proof minutes w Hproof Hv Hmb)
      as (h & l & Hrun & _). eauto. }
  repeat (split; [assumption | ]).
  intros e w' Hrun.
  destruct proof as [ | byte proof'].
  - rewrite Hempty in Hrun by reflexivity. injection Hrun as <- <-. auto.
  - destruct (inputVerifier sender ext (byte :: proof')) as [minutes | ] eqn:Hv.
    + destruct (Hgood ltac:(discriminate) minutes eq_refl) as (h & w'' & Hdone).
      rewrite Hdone in Hrun. discriminate Hrun.
    + rewrite Hbad in Hrun by (discriminate || reflexivity).
      injection Hrun as <- <-. auto.
Qed.

(** X7.  A completed [quote] makes [8 * (_msbPos maxBlocks + 1) + 13]
    executor calls, one ciphertext each: at least 21 and at most 141,
    whatever the input. *)
Theorem quote_cost (sender : address) (ext : Z) (proof : list Byte.byte)
        (h : Z) (w w' : World) :
  1 <= maxBlocks w <= UInt.max 16 ->
  quote this inputVerifier sender ext proof w = Done h w' ->
  Z.of_nat (length (appended w w')) = 8 * (_msbPos (maxBlocks w) + 1) + 13 /\
  21 <= Z.of_nat (length (appended w w')) <= 141.
Proof.
  intros Hmb Hrun.
  destruct (quote_Done_inv _ _ _ _ _ _ _ _ Hrun) as [Hproof [minutes Hv]].
  destruct (quote_run this inputVerifier sender ext proof minutes w Hproof Hv Hmb)
    as (h0 & l & Hrun0 & _ & Hops & _).
  rewrite Hrun in Hrun0. injection Hrun0 as -> ->.
  rewrite appended_quoted.
  assert (Hlen : length l = length (quote_ops (Z.to_nat (_msbPos (maxBlocks w) + 1))))
    by (rewrite <- Hops, length_map; reflexivity).
  rewrite length_quote_ops in Hlen.
  pose proof (_msbPos_bounds _ Hmb) as [Hpos _]. lia.
Qed.

End Arithmetic.

(** ** Grants, notifications and stored results *)

Lemma last_quoted_snoc (who user : address) (h : Z) (log : list Event) :
  last_quoted who (log ++ [Quoted user h])
    = if decide (user = who) then h else last_quoted who log.
Proof. unfold last_quoted. rewrite foldl_app. reflexivity. Qed.

Lemma read__lastFee_quoted_cases (this sender who : address) (h : Z)
      (l : list Ciphertext) (w : World) :
  read__lastFee who (quoted this sender h l w)
    = if decide (sender = who) then h else read__lastFee who w.
Proof.
  destruct (decide (sender = who)) as [<- | Hne].
  - apply read__lastFee_quoted.
  - unfold read__lastFee, quoted. cbn. rewrite lookup_insert_ne by exact Hne. reflexivity.
Qed.

(** Case analysis of one call in a state that satisfies the invariant. *)
Ltac step_cases this inputVerifier HI caller c w :=
  let Hrun := fresh "Hrun" in
  destruct c as [?n | ?p | ?m | | ?ext ?proof]; cbn [step]; unfold external_call;
  [ rewrite transferOwnership_cases; repeat case_decide; cbn [fst]
  | rewrite setPricePerBlock_cases; repeat case_decide; cbn [fst]
  | rewrite setMaxBlocks_cases; repeat case_decide; cbn [fst]
  | rewrite getMyFeeHandle_run; cbn [fst]
  | match goal with
    | |- context [quote this inputVerifier caller ?ext ?proof w] =>
        destruct (quote_cases this inputVerifier caller ext proof w HI)
          as [(?h & ?minutes & ?l & ?Hproof & ?Hv & Hrun & ?Hdec & ?Hops & ?Hh)
             | (?e & ?w' & Hrun)];
        rewrite ?Hrun in *; cbn [fst]
    end ].

Section Records.

Variable this : address.
Variable inputVerifier : address -> externalEuint64 -> list Byte.byte -> option Z.

(** X8.  A completed [quote] grants access to the stored fee to two
    identities, the contract itself and the caller, and grants nothing
    else: the access list grows by these two entries, both are in it
    afterwards, and every grant in it that was not there before the call
    is one of the two. *)
Theorem quote_grants (A : address) (ext : Z) (proof : list Byte.byte)
        (h : Z) (w w' : World) :
  reachable this inputVerifier w ->
  quote this inputVerifier A ext proof w = Done h w' ->
  acl w' = {[ (h, A) ]} ∪ ({[ (h, this) ]} ∪ acl w) /\
  (h, A) ∈ acl w' /\
  (h, this) ∈ acl w' /\
  (forall (h0 : Z) (B : address),
      (h0, B) ∈ acl w' -> (h0, B) ∉ acl w -> h0 = h /\ (B = A \/ B = this)).
Proof.
  intros Hreach Hrun. pose proof (reachable_Inv _ _ _ Hreach) as HI.
  destruct (quote_cases this inputVerifier A ext proof w HI)
    as [(h0 & minutes & l & _ & _ & Hrun0 & _ & _ & _) | (e & w0 & Hrun0)];
    rewrite Hrun in Hrun0; [ | discriminate Hrun0].
  injection Hrun0 as -> ->.
  split; [reflexivity | ].
  unfold quoted. cbn [acl emit grant set__lastFee push_ciphertexts].
  split; [set_solver | ]. split; [set_solver | ].
  intros h1 B. rewrite !elem_of_union, !elem_of_singleton.
  intros [[= -> ->] | [[= -> ->] | Hold]] Hnew; auto.
  contradiction.
Qed.

Lemma step_events (caller : address) (c : Call) (w : World) :
  Inv w ->
  events (step this inputVerifier caller c w)
    = events w ++
      match c with
      | Call_quote ext proof =>
          match quote this inputVerifier caller ext proof w with
          | Done h _ => [Quoted caller h]
          | Reverted _ _ => []
          end
      | _ => []
      end.
Proof.
  intros HI.
  step_cases this inputVerifier HI caller c w;
    rewrite ?app_nil_r; reflexivity.
Qed.

(** X9.  A completed [quote] appends exactly one event,
    [Quoted(caller, handle)] with the handle it returns; every other call,
    and every failed call, leaves the log as it was. *)
Theorem quote_notifies (caller : address) (c : Call) (w : World) :
  reachable this inputVerifier w ->
  events (step this inputVerifier caller c w)
    = events w ++
      match c with
      | Call_quote ext proof =>
          match quote this inputVerifier caller ext proof w with
          | Done h _ => [Quoted caller h]
          | Reverted _ _ => []
          end
      | _ => []
      end.
Proof.
  intros Hreach. apply step_events. exact (reachable_Inv _ _ _ Hreach).
Qed.

Lemma step_lastFee (caller who : address) (c : Call) (w : World) :
  Inv w ->
  read__lastFee who (step this inputVerifier caller c w)
    = match c with
      | Call_quote ext proof =>
          match quote this inputVerifier caller ext proof w with
          | Done h _ => if decide (caller = who) then h else read__lastFee who w
          | Reverted _ _ => read__lastFee who w
          end
      | _ => read__lastFee who w
      end.
Proof.
  intros HI. step_cases this inputVerifier HI caller c w; try reflexivity.
  apply read__lastFee_quoted_cases.
Qed.

(** X10.  In every reachable state the result map and the event log
    agree: what [getMyFeeHandle] returns for an identity is the handle of
    that identity's latest [Quoted] event, and [0] when it has none. *)
Theorem log_matches_custody (who : address) (w : World) :
  reachable this inputVerifier w ->
  getMyFeeHandle who w = Done (last_quoted who (events w)) w.
Proof.
  intros Hreach. rewrite getMyFeeHandle_run. f_equal.
  induction Hreach as [sender p m w Hp Hm Hd | w sender c Hr IH Hc].
  - revert Hd. unfold deploy, external_call. rewrite constructor_cases.
    repeat case_decide; intros [= <-]. reflexivity.
  - pose proof (reachable_Inv _ _ _ Hr) as HI.
    rewrite step_lastFee by exact HI. rewrite step_events by exact HI.
    destruct c as [n | p | m | | ext proof]; rewrite ?app_nil_r; try exact IH.
    destruct (quote this inputVerifier sender ext proof w) as [h w' | e w'].
    + rewrite last_quoted_snoc, IH. reflexivity.
    + rewrite app_nil_r. exact IH.
Qed.

Lemma step_decrypt (caller : address) (c : Call) (h v : Z) (w : World) :
  Inv w -> decrypt w h = Some v ->
  decrypt (step this inputVerifier caller c w) h = Some v.
Proof.
  intros HI Hdec0.
  step_cases this inputVerifier HI caller c w; try exact Hdec0.
  rewrite decrypt_quoted. apply decrypt_push. exact Hdec0.
Qed.

(** X11.  Stored results persist: along any history of well-typed calls
    in which an identity completes no [quote], its stored handle stays the
    same and keeps decrypting to the same fee, whatever others quote and
    however the authority changes the price or the cap in between. *)
Theorem results_persist (who : address) (txs : list (address * Call)) (h v : Z)
        (w : World) :
  reachable this inputVerifier w ->
  Forall (fun tx => well_typed tx.2) txs ->
  has_quoted this inputVerifier who txs w = false ->
  read__lastFee who w = h ->
  decrypt w h = Some v ->
  read__lastFee who (run this inputVerifier txs w) = h /\
  decrypt (run this inputVerifier txs w) h = Some v.
Proof.
  intros Hreach. apply reachable_Inv in Hreach. revert w Hreach.
  induction txs as [ | [sender c] txs IH]; intros w HI Htxs Hq Hh Hdec; [auto | ].
  cbn [run has_quoted] in *. inversion Htxs as [ | ? ? Hc Hrest]; subst.
  apply orb_false_iff in Hq as [Hnow Hlater].
  apply IH; [apply Inv_step; assumption | exact Hrest | exact Hlater | | ].
  - rewrite step_lastFee by exact HI.
    destruct c as [n | p | m | | ext proof]; try reflexivity.
    destruct (quote this inputVerifier sender ext proof w) as [h' w' | e w'];
      [ | reflexivity].
    apply bool_decide_eq_false in Hnow.
    destruct (decide (sender = who)); [contradiction | reflexivity].
  - apply step_decrypt; assumption.
Qed.

End Records.

(** ** Ownership and policy updates *)

(** X12.  Ownership hand-over: when the authority transfers ownership to
    a non-zero identity [n], the owner becomes [n] and nothing else
    changes; from then on the previous authority is refused by all three
    guarded functions, and [n] can set the price. *)
Theorem ownership_handover (old n : address) (p m : Z) (w : World) :
  old = owner w -> n <> 0 -> n <> old -> 0 < p ->
  transferOwnership old n w = Done tt (set_owner n w) /\
  owner (set_owner n w) = n /\
  (pricePerBlock (set_owner n w) = pricePerBlock w /\
   maxBlocks (set_owner n w) = maxBlocks w /\
   _lastFee (set_owner n w) = _lastFee w /\
   ciphertexts (set_owner n w) = ciphertexts w /\
   acl (set_owner n w) = acl w /\
   events (set_owner n w) = events w) /\
  (setPricePerBlock old p (set_owner n w) = Reverted Not_owner (set_owner n w) /\
   setMaxBlocks old m (set_owner n w) = Reverted Not_owner (set_owner n w) /\
   transferOwnership old old (set_owner n w) = Reverted Not_owner (set_owner n w)) /\
  setPricePerBlock n p (set_owner n w)
    = Done tt (set_pricePerBlock p (set_owner n w)).
Proof.
  intros Hold Hn Hne Hp.
  rewrite !transferOwnership_cases, !setPricePerBlock_cases, setMaxBlocks_cases.
  cbn [owner set_owner].
  destruct (decide (old = owner w)) as [_ | ?]; [ | contradiction].
  destruct (decide (n <> 0)) as [_ | ?]; [ | contradiction].
  destruct (decide (old = n)) as [? | _]; [congruence | ].
  destruct (decide (n = n)) as [_ | ?]; [ | congruence].
  destruct (decide (0 < p)) as [_ | ?]; [ | contradiction].
  repeat split; reflexivity.
Qed.

Lemma ownership_handover_witness :
  (Scenario.authority = owner Scenario.sepolia /\ Scenario.alice <> 0 /\
   Scenario.alice <> Scenario.authority /\ 0 < 75) /\
  transferOwnership Scenario.authority Scenario.alice Scenario.sepolia
    = Done tt (set_owner Scenario.alice Scenario.sepolia) /\
  setPricePerBlock Scenario.authority 75 (set_owner Scenario.alice Scenario.sepolia)
    = Reverted Not_owner (set_owner Scenario.alice Scenario.sepolia).
Proof.
  assert (H1 : Scenario.authority = owner Scenario.sepolia) by reflexivity.
  assert (H2 : Scenario.alice <> 0) by evaluate.
  assert (H3 : Scenario.alice <> Scenario.authority) by evaluate.
  assert (H4 : 0 < 75) by lia.
  split; [auto | ].
  pose proof (ownership_handover Scenario.authority Scenario.alice 75 48
                Scenario.sepolia H1 H2 H3 H4) as (Ht & _ & _ & (Hs & _) & _).
  split; [exact Ht | exact Hs].
Defined.

Section Policy.

Variable this : address.
Variable inputVerifier : address -> externalEuint64 -> list Byte.byte -> option Z.

Lemma step_owner (caller : address) (c : Call) (w : World) :
  Inv w -> owner w <> 0 -> owner (step this inputVerifier caller c w) <> 0.
Proof.
  intros HI Ho. step_cases this inputVerifier HI caller c w; try exact Ho.
  cbn [owner set_owner]. assumption.
Qed.

(** X13.  The contract never loses its authority: deployed by a non-zero
    identity, after any history of well-typed calls the owner is not the
    zero identity. *)
Theorem owner_never_zero (deployer : address) (p m : Z) (w0 : World)
        (txs : list (address * Call)) :
  deployer <> 0 ->
  UInt.In 64 p -> UInt.In 16 m ->
  deploy deployer p m = (w0, Success tt) ->
  Forall (fun tx => well_typed tx.2) txs ->
  owner w0 = deployer /\ owner (run this inputVerifier txs w0) <> 0.
Proof.
  intros Hd Hp Hm Hdeploy Htxs.
  pose proof (Inv_deploy deployer p m w0 Hp Hm Hdeploy) as HI.
  assert (Ho : owner w0 = deployer).
  { revert Hdeploy. unfold deploy, external_call. rewrite constructor_cases.
    repeat case_decide; intros [= <-]. reflexivity. }
  split; [exact Ho | ].
  assert (Hnz : owner w0 <> 0) by congruence.
  clear Ho Hdeploy. revert w0 HI Hnz.
  induction txs as [ | [sender c] txs IH]; intros w HI Hnz; [exact Hnz | ].
  cbn [run]. inversion Htxs as [ | ? ? Hc Hrest]; subst.
  apply IH; [exact Hrest | apply Inv_step; assumption | apply step_owner; assumption].
Qed.

(** X14.  A policy update applies to the next computation: after the
    authority sets the price to [p], the fee of the next [quote] is
    computed with [p]; after it sets the cap to [m], the next block count
    is capped at [m]. *)
Theorem policy_update_applies (authority sender : address) (p m : Z) (ext : Z)
        (proof : list Byte.byte) (minutes : Z) (w : World) :
  authority = owner w ->
  1 <= p -> 1 <= m <= UInt.max 16 ->
  1 <= maxBlocks w <= UInt.max 16 ->
  proof <> [] ->
  inputVerifier sender ext proof = Some minutes ->
  0 <= minutes <= UInt.max 64 ->
  stored_fee_of this inputVerifier sender ext proof
    (step this inputVerifier authority (Call_setPricePerBlock p) w)
    = Some (UInt.wrap 64 (Z.min (ceil_div minutes BLOCK_MINUTES) (maxBlocks w) * p)) /\
  capped_blocks_of inputVerifier sender ext proof
    (step this inputVerifier authority (Call_setMaxBlocks m) w)
    = Some (Z.min (ceil_div minutes BLOCK_MINUTES) m).
Proof.
  intros Ha Hp Hm Hmb Hproof Hv Hu64. unfold UInt.max in Hu64.
  cbn [step]. unfold external_call.
  rewrite setPricePerBlock_cases, setMaxBlocks_cases.
  destruct (decide (authority = owner w)) as [_ | ?]; [ | contradiction].
  destruct (decide (0 < p)) as [_ | ?]; [ | lia].
  destruct (decide (0 < m)) as [_ | ?]; [ | lia].
  cbn [fst]. split.
  - rewrite (stored_fee_of_eq this inputVerifier sender ext proof minutes _ Hproof Hv
               (Hmb : 1 <= maxBlocks (set_pricePerBlock p w) <= UInt.max 16)).
    cbn [maxBlocks pricePerBlock set_pricePerBlock].
    rewrite capped_clear_min by lia. reflexivity.
  - rewrite (capped_blocks_of_eq inputVerifier sender ext proof minutes _ Hproof Hv
               (Hm : 1 <= maxBlocks (set_maxBlocks m w) <= UInt.max 16)).
    cbn [maxBlocks set_maxBlocks].
    rewrite capped_clear_min by lia. reflexivity.
Qed.

End Policy.

(** ** The further properties on the scenarios *)

Lemma sepolia_quoted_reachable :
  reachable Scenario.this Scenario.verifier
    (step Scenario.this Scenario.verifier Scenario.alice
       (Call_quote 31 Scenario.proof) Scenario.sepolia).
Proof. apply reachable_step; [exact sepolia_reachable | evaluate]. Qed.

Lemma capped_blocks_closed_form_witness :
  (Scenario.proof <> [] /\
   Scenario.verifier Scenario.alice 2881 Scenario.proof = Some 2881 /\
   1 <= maxBlocks Scenario.sepolia <= UInt.max 16 /\
   0 <= 2881 <= UInt.max 64) /\
  capped_blocks_of Scenario.verifier Scenario.alice 2881 Scenario.proof Scenario.sepolia
    = Some (Z.min (ceil_div 2881 BLOCK_MINUTES) (maxBlocks Scenario.sepolia)).
Proof.
  assert (H1 : Scenario.proof <> []) by discriminate.
  assert (H2 : Scenario.verifier Scenario.alice 2881 Scenario.proof = Some 2881)
    by reflexivity.
  assert (H3 : 1 <= maxBlocks Scenario.sepolia <= UInt.max 16) by evaluate.
  assert (H4 : 0 <= 2881 <= UInt.max 64) by evaluate.
  split; [auto | ].
  exact (capped_blocks_closed_form Scenario.verifier Scenario.alice 2881 Scenario.proof
           2881 Scenario.sepolia H1 H2 H3 H4).
Defined.

Lemma ladder_saturates_witness :
  (Scenario.proof <> [] /\
   Scenario.verifier Scenario.alice 4000 Scenario.proof = Some 4000 /\
   1 <= maxBlocks Scenario.sepolia <= UInt.max 16 /\
   BLOCK_MINUTES * 2 ^ (Z.log2 (maxBlocks Scenario.sepolia) + 1) <= 4000 <= UInt.max 64) /\
  uncapped_blocks_of Scenario.verifier Scenario.alice 4000 Scenario.proof Scenario.sepolia
    = Some (2 ^ (Z.log2 (maxBlocks Scenario.sepolia) + 1)) /\
  maxBlocks Scenario.sepolia < 2 ^ (Z.log2 (maxBlocks Scenario.sepolia) + 1).
Proof.
  assert (H1 : Scenario.proof <> []) by discriminate.
  assert (H2 : Scenario.verifier Scenario.alice 4000 Scenario.proof = Some 4000)
    by reflexivity.
  assert (H3 : 1 <= maxBlocks Scenario.sepolia <= UInt.max 16) by evaluate.
  assert (H4 : BLOCK_MINUTES * 2 ^ (Z.log2 (maxBlocks Scenario.sepolia) + 1)
               <= 4000 <= UInt.max 64) by evaluate.
  split; [auto | ].
  exact (ladder_saturates Scenario.verifier Scenario.alice 4000 Scenario.proof
           4000 Scenario.sepolia H1 H2 H3 H4).
Defined.

Lemma zero_minutes_accepted_witness :
  (Scenario.proof <> [] /\
   Scenario.verifier Scenario.alice 0 Scenario.proof = Some 0 /\
   1 <= maxBlocks Scenario.sepolia <= UInt.max 16) /\
  capped_blocks_of Scenario.verifier Scenario.alice 0 Scenario.proof Scenario.sepolia
    = Some 0 /\
  stored_fee_of Scenario.this Scenario.verifier Scenario.alice 0 Scenario.proof
    Scenario.sepolia = Some 0.
Proof.
  assert (H1 : Scenario.proof <> []) by discriminate.
  assert (H2 : Scenario.verifier Scenario.alice 0 Scenario.proof = Some 0) by reflexivity.
  assert (H3 : 1 <= maxBlocks Scenario.sepolia <= UInt.max 16) by evaluate.
  split; [auto | ].
  exact (proj2 (zero_minutes_accepted Scenario.this Scenario.verifier Scenario.alice 0
                  Scenario.proof Scenario.sepolia H1 H2 H3)).
Defined.

Lemma positive_duration_billed_witness :
  (Scenario.proof <> [] /\
   Scenario.verifier Scenario.alice 45 Scenario.proof = Some 45 /\
   1 <= maxBlocks Scenario.sepolia <= UInt.max 16 /\
   1 <= pricePerBlock Scenario.sepolia /\
   0 < 45 <= UInt.max 64 /\
   maxBlocks Scenario.sepolia * pricePerBlock Scenario.sepolia < 2 ^ 64) /\
  exists blocks fee : Z,
    capped_blocks_of Scenario.verifier Scenario.alice 45 Scenario.proof Scenario.sepolia
      = Some blocks /\
    stored_fee_of Scenario.this Scenario.verifier Scenario.alice 45 Scenario.proof
      Scenario.sepolia = Some fee /\
    1 <= blocks <= maxBlocks Scenario.sepolia /\
    fee = blocks * pricePerBlock Scenario.sepolia /\
    pricePerBlock Scenario.sepolia <= fee
      <= maxBlocks Scenario.sepolia * pricePerBlock Scenario.sepolia.
Proof.
  assert (H1 : Scenario.proof <> []) by discriminate.
  assert (H2 : Scenario.verifier Scenario.alice 45 Scenario.proof = Some 45) by reflexivity.
  assert (H3 : 1 <= maxBlocks Scenario.sepolia <= UInt.max 16) by evaluate.
  assert (H4 : 1 <= pricePerBlock Scenario.sepolia) by evaluate.
  assert (H5 : 0 < 45 <= UInt.max 64) by evaluate.
  assert (H6 : maxBlocks Scenario.sepolia * pricePerBlock Scenario.sepolia < 2 ^ 64)
    by evaluate.
  split; [auto 10 | ].
  exact (positive_duration_billed Scenario.this Scenario.verifier Scenario.alice 45
           Scenario.proof 45 Scenario.sepolia H1 H2 H3 H4 H5 H6).
Defined.

Lemma block_boundaries_witness :
  (Scenario.proof <> [] /\
   Scenario.verifier Scenario.alice 90 Scenario.proof = Some (BLOCK_MINUTES * 3) /\
   Scenario.verifier Scenario.alice 91 Scenario.proof = Some (BLOCK_MINUTES * 3 + 1) /\
   1 <= maxBlocks Scenario.sepolia <= UInt.max 16 /\
   0 <= 3 /\ BLOCK_MINUTES * 3 + 1 <= UInt.max 64) /\
  capped_blocks_of Scenario.verifier Scenario.alice 90 Scenario.proof Scenario.sepolia
    = Some (Z.min 3 (maxBlocks Scenario.sepolia)) /\
  capped_blocks_of Scenario.verifier Scenario.alice 91 Scenario.proof Scenario.sepolia
    = Some (Z.min (3 + 1) (maxBlocks Scenario.sepolia)).
Proof.
  assert (H1 : Scenario.proof <> []) by discriminate.
  assert (H2 : Scenario.verifier Scenario.alice 90 Scenario.proof
               = Some (BLOCK_MINUTES * 3)) by reflexivity.
  assert (H3 : Scenario.verifier Scenario.alice 91 Scenario.proof
               = Some (BLOCK_MINUTES * 3 + 1)) by reflexivity.
  assert (H4 : 1 <= maxBlocks Scenario.sepolia <= UInt.max 16) by evaluate.
  assert (H5 : 0 <= 3) by lia.
  assert (H6 : BLOCK_MINUTES * 3 + 1 <= UInt.max 64) by evaluate.
  split; [auto 10 | ].
  exact (block_boundaries Scenario.verifier Scenario.alice 90 91 Scenario.proof
           Scenario.proof 3 Scenario.sepolia H1 H1 H2 H3 H4 H5 H6).
Defined.

Lemma quote_failure_modes_witness :
  1 <= maxBlocks Scenario.sepolia <= UInt.max 16 /\
  quote Scenario.this Scenario.verifier Scenario.alice 31 [] Scenario.sepolia
    = Reverted Empty_proof Scenario.sepolia.
Proof.
  assert (H1 : 1 <= maxBlocks Scenario.sepolia <= UInt.max 16) by evaluate.
  split; [exact H1 | ].
  exact (proj1 (quote_failure_modes Scenario.this Scenario.verifier Scenario.alice 31 []
                  Scenario.sepolia H1) eq_refl).
Defined.

Lemma quote_cost_witness :
  (1 <= maxBlocks Scenario.sepolia <= UInt.max 16 /\
   quote Scenario.this Scenario.verifier Scenario.alice 31 Scenario.proof Scenario.sepolia
     = Done 69 (step Scenario.this Scenario.verifier Scenario.alice
                  (Call_quote 31 Scenario.proof) Scenario.sepolia)) /\
  Z.of_nat (length (appended Scenario.sepolia
                      (step Scenario.this Scenario.verifier Scenario.alice
                         (Call_quote 31 Scenario.proof) Scenario.sepolia)))
    = 8 * (_msbPos (maxBlocks Scenario.sepolia) + 1) + 13.
Proof.
  assert (H1 : 1 <= maxBlocks Scenario.sepolia <= UInt.max 16) by evaluate.
  assert (H2 : quote Scenario.this Scenario.verifier Scenario.alice 31 Scenario.proof
                 Scenario.sepolia
               = Done 69 (step Scenario.this Scenario.verifier Scenario.alice
                            (Call_quote 31 Scenario.proof) Scenario.sepolia))
    by (vm_compute; reflexivity).
  split; [auto | ].
  exact (proj1 (quote_cost Scenario.this Scenario.verifier Scenario.alice 31
                  Scenario.proof 69 Scenario.sepolia _ H1 H2)).
Defined.

Lemma quote_grants_witness :
  (reachable Scenario.this Scenario.verifier Scenario.sepolia /\
   quote Scenario.this Scenario.verifier Scenario.alice 31 Scenario.proof Scenario.sepolia
     = Done 69 (step Scenario.this Scenario.verifier Scenario.alice
                  (Call_quote 31 Scenario.proof) Scenario.sepolia)) /\
  (69, Scenario.alice) ∈ acl (step Scenario.this Scenario.verifier Scenario.alice
                                (Call_quote 31 Scenario.proof) Scenario.sepolia) /\
  (69, Scenario.this) ∈ acl (step Scenario.this Scenario.verifier Scenario.alice
                               (Call_quote 31 Scenario.proof) Scenario.sepolia).
Proof.
  assert (H1 : quote Scenario.this Scenario.verifier Scenario.alice 31 Scenario.proof
                 Scenario.sepolia
               = Done 69 (step Scenario.this Scenario.verifier Scenario.alice
                            (Call_quote 31 Scenario.proof) Scenario.sepolia))
    by (vm_compute; reflexivity).
  split; [split; [exact sepolia_reachable | exact H1] | ].
  pose proof (quote_grants Scenario.this Scenario.verifier Scenario.alice 31
                Scenario.proof 69 Scenario.sepolia _ sepolia_reachable H1)
    as (_ & Ha & Ht & _).
  split; [exact Ha | exact Ht].
Defined.

Lemma quote_notifies_witness :
  reachable Scenario.this Scenario.verifier Scenario.sepolia /\
  events (step Scenario.this Scenario.verifier Scenario.alice
            (Call_quote 31 Scenario.proof) Scenario.sepolia)
    = events Scenario.sepolia ++
      match quote Scenario.this Scenario.verifier Scenario.alice 31 Scenario.proof
              Scenario.sepolia with
      | Done h _ => [Quoted Scenario.alice h]
      | Reverted _ _ => []
      end.
Proof.
  split; [exact sepolia_reachable | ].
  exact (quote_notifies Scenario.this Scenario.verifier Scenario.alice
           (Call_quote 31 Scenario.proof) Scenario.sepolia sepolia_reachable).
Defined.

Lemma log_matches_custody_witness :
  reachable Scenario.this Scenario.verifier
    (step Scenario.this Scenario.verifier Scenario.alice
       (Call_quote 31 Scenario.proof) Scenario.sepolia) /\
  getMyFeeHandle Scenario.alice
    (step Scenario.this Scenario.verifier Scenario.alice
       (Call_quote 31 Scenario.proof) Scenario.sepolia)
  = Done (last_quoted Scenario.alice
            (events (step Scenario.this Scenario.verifier Scenario.alice
                       (Call_quote 31 Scenario.proof) Scenario.sepolia)))
      (step Scenario.this Scenario.verifier Scenario.alice
         (Call_quote 31 Scenario.proof) Scenario.sepolia).
Proof.
  split; [exact sepolia_quoted_reachable | ].
  exact (log_matches_custody Scenario.this Scenario.verifier Scenario.alice _
           sepolia_quoted_reachable).
Defined.

Lemma results_persist_witness :
  (reachable Scenario.this Scenario.verifier
     (step Scenario.this Scenario.verifier Scenario.alice
        (Call_quote 31 Scenario.proof) Scenario.sepolia) /\
   Forall (fun tx : address * Call => well_typed tx.2)
     [(Scenario.bob, Call_quote 45 Scenario.proof);
      (Scenario.authority, Call_setPricePerBlock 75)] /\
   has_quoted Scenario.this Scenario.verifier Scenario.alice
     [(Scenario.bob, Call_quote 45 Scenario.proof);
      (Scenario.authority, Call_setPricePerBlock 75)]
     (step Scenario.this Scenario.verifier Scenario.alice
        (Call_quote 31 Scenario.proof) Scenario.sepolia) = false /\
   read__lastFee Scenario.alice
     (step Scenario.this Scenario.verifier Scenario.alice
        (Call_quote 31 Scenario.proof) Scenario.sepolia) = 69 /\
   decrypt (step Scenario.this Scenario.verifier Scenario.alice
              (Call_quote 31 Scenario.proof) Scenario.sepolia) 69 = Some 100) /\
  read__lastFee Scenario.alice
    (run Scenario.this Scenario.verifier
       [(Scenario.bob, Call_quote 45 Scenario.proof);
        (Scenario.authority, Call_setPricePerBlock 75)]
       (step Scenario.this Scenario.verifier Scenario.alice
          (Call_quote 31 Scenario.proof) Scenario.sepolia)) = 69 /\
  decrypt (run Scenario.this Scenario.verifier
             [(Scenario.bob, Call_quote 45 Scenario.proof);
              (Scenario.authority, Call_setPricePerBlock 75)]
             (step Scenario.this Scenario.verifier Scenario.alice
                (Call_quote 31 Scenario.proof) Scenario.sepolia)) 69 = Some 100.
Proof.
  assert (H2 : Forall (fun tx : address * Call => well_typed tx.2)
                 [(Scenario.bob, Call_quote 45 Scenario.proof);
                  (Scenario.authority, Call_setPricePerBlock 75)])
    by (repeat constructor; evaluate).
  assert (H3 : has_quoted Scenario.this Scenario.verifier Scenario.alice
                 [(Scenario.bob, Call_quote 45 Scenario.proof);
                  (Scenario.authority, Call_setPricePerBlock 75)]
                 (step Scenario.this Scenario.verifier Scenario.alice
                    (Call_quote 31 Scenario.proof) Scenario.sepolia) = false)
    by (vm_compute; reflexivity).
  assert (H4 : read__lastFee Scenario.alice
                 (step Scenario.this Scenario.verifier Scenario.alice
                    (Call_quote 31 Scenario.proof) Scenario.sepolia) = 69)
    by (vm_compute; reflexivity).
  assert (H5 : decrypt (step Scenario.this Scenario.verifier Scenario.alice
                          (Call_quote 31 Scenario.proof) Scenario.sepolia) 69 = Some 100)
    by (vm_compute; reflexivity).
  split; [split; [exact sepolia_quoted_reachable | auto] | ].
  exact (results_persist Scenario.this Scenario.verifier Scenario.alice _ 69 100 _
           sepolia_quoted_reachable H2 H3 H4 H5).
Defined.

Lemma owner_never_zero_witness :
  (Scenario.authority <> 0 /\ UInt.In 64 50 /\ UInt.In 16 96 /\
   deploy Scenario.authority 50 96 = (Scenario.sepolia, Success tt) /\
   Forall (fun tx : address * Call => well_typed tx.2)
     [(Scenario.authority, Call_transferOwnership Scenario.alice);
      (Scenario.alice, Call_transferOwnership 0)]) /\
  owner Scenario.sepolia = Scenario.authority /\
  owner (run Scenario.this Scenario.verifier
           [(Scenario.authority, Call_transferOwnership Scenario.alice);
            (Scenario.alice, Call_transferOwnership 0)] Scenario.sepolia) <> 0.
Proof.
  assert (H1 : Scenario.authority <> 0) by evaluate.
  assert (H2 : UInt.In 64 50) by evaluate.
  assert (H3 : UInt.In 16 96) by evaluate.
  assert (H4 : deploy Scenario.authority 50 96 = (Scenario.sepolia, Success tt))
    by (vm_compute; reflexivity).
  assert (H5 : Forall (fun tx : address * Call => well_typed tx.2)
                 [(Scenario.authority, Call_transferOwnership Scenario.alice);
                  (Scenario.alice, Call_transferOwnership 0)])
    by (repeat constructor; evaluate).
  split; [auto 10 | ].
  exact (owner_never_zero Scenario.this Scenario.verifier Scenario.authority 50 96
           Scenario.sepolia _ H1 H2 H3 H4 H5).
Defined.

Lemma policy_update_applies_witness :
  (Scenario.authority = owner Scenario.sepolia /\
   1 <= 75 /\ 1 <= 48 <= UInt.max 16 /\
   1 <= maxBlocks Scenario.sepolia <= UInt.max 16 /\
   Scenario.proof <> [] /\
   Scenario.verifier Scenario.alice 2880 Scenario.proof = Some 2880 /\
   0 <= 2880 <= UInt.max 64) /\
  stored_fee_of Scenario.this Scenario.verifier Scenario.alice 2880 Scenario.proof
    (step Scenario.this Scenario.verifier Scenario.authority
       (Call_setPricePerBlock 75) Scenario.sepolia)
    = Some (UInt.wrap 64 (Z.min (ceil_div 2880 BLOCK_MINUTES)
                                (maxBlocks Scenario.sepolia) * 75)) /\
  capped_blocks_of Scenario.verifier Scenario.alice 2880 Scenario.proof
    (step Scenario.this Scenario.verifier Scenario.authority
       (Call_setMaxBlocks 48) Scenario.sepolia)
    = Some (Z.min (ceil_div 2880 BLOCK_MINUTES) 48).
Proof.
  assert (H1 : Scenario.authority = owner Scenario.sepolia) by reflexivity.
  assert (H2 : 1 <= 75) by lia.
  assert (H3 : 1 <= 48 <= UInt.max 16) by evaluate.
  assert (H4 : 1 <= maxBlocks Scenario.sepolia <= UInt.max 16) by evaluate.
  assert (H5 : Scenario.proof <> []) by discriminate.
  assert (H6 : Scenario.verifier Scenario.alice 2880 Scenario.proof = Some 2880)
    by reflexivity.
  assert (H7 : 0 <= 2880 <= UInt.max 64) by evaluate.
  split; [auto 10 | ].
  exact (policy_update_applies Scenario.this Scenario.verifier Scenario.authority
           Scenario.alice 75 48 2880 Scenario.proof 2880 Scenario.sepolia
           H1 H2 H3 H4 H5 H6 H7).
Defined.

(** * The client's FHE SDK singleton *)

Section SdkProofs.

Variable Instance : Type.
Variable Err : Type.

Local Abbreviation SdkState := (FheSdk.SdkState Instance).
Local Abbreviation Event := (FheSdk.Event Instance Err).

Lemma sdk_run_app (evs evs' : list Event) (s : SdkState) :
  FheSdk.run Instance Err (evs ++ evs') s
    = FheSdk.run Instance Err evs' (FheSdk.run Instance Err evs s).
Proof. unfold FheSdk.run. apply foldl_app. Qed.

Lemma sdk_shape_step (s : SdkState) (ev : Event) :
  FheSdk.Shape Instance s -> FheSdk.Shape Instance (FheSdk.step Instance Err s ev).
Proof.
  intros [Hi Hp | ph Hi Hp Hc Hs | i Hi Hp Hf]; destruct s as [inst prom flag calls];
    cbn in Hi, Hp; subst.
  - destruct ev; cbn; try (apply FheSdk.Idle; reflexivity).
    unfold FheSdk.initializeFHE; cbn. destruct flag.
    + apply (FheSdk.Initialising _ _ FheSdk.AwaitCreateInstance); cbn; congruence.
    + apply (FheSdk.Initialising _ _ FheSdk.AwaitInitSDK); cbn; congruence.
  - cbn in Hc, Hs.
    destruct ev, ph; cbn;
      try (apply (FheSdk.Initialising _ _ FheSdk.AwaitInitSDK); cbn; auto; congruence);
      try (apply (FheSdk.Initialising _ _ FheSdk.AwaitCreateInstance); cbn; auto; congruence);
      try (apply FheSdk.Idle; reflexivity).
    apply (FheSdk.Ready _ _ i); cbn; auto.
  - cbn in Hf. destruct ev; cbn; apply (FheSdk.Ready _ _ i); cbn; auto.
Qed.

Lemma sdk_shape_run (evs : list Event) : forall s : SdkState,
  FheSdk.Shape Instance s -> FheSdk.Shape Instance (FheSdk.run Instance Err evs s).
Proof.
  induction evs as [ | ev evs IH]; intros s Hs; [exact Hs | ].
  apply IH, sdk_shape_step, Hs.
Qed.

Lemma sdk_shape_loaded (evs : list Event) :
  FheSdk.Shape Instance (FheSdk.run Instance Err evs (FheSdk.loaded Instance)).
Proof. apply sdk_shape_run. apply FheSdk.Idle; reflexivity. Qed.

Lemma sdk_failure_step (s : SdkState) (e : Err) :
  FheSdk.Shape Instance s ->
  (FheSdk.initPromise Instance s = Some (FheSdk.Pending Instance FheSdk.AwaitInitSDK) ->
   FheSdk.step Instance Err s (FheSdk.InitSDK_rejects Instance Err e)
     = FheSdk.mkSdkState Instance None None false (FheSdk.sdk_calls Instance s)) /\
  (FheSdk.initPromise Instance s
     = Some (FheSdk.Pending Instance FheSdk.AwaitCreateInstance) ->
   FheSdk.step Instance Err s (FheSdk.CreateInstance_rejects Instance Err e)
     = FheSdk.mkSdkState Instance None None true (FheSdk.sdk_calls Instance s)).
Proof.
  intros [Hi Hp | ph Hi Hp Hc Hs | i Hi Hp Hf]; destruct s as [inst prom flag calls];
    cbn in *; subst; split; intros [= Hph]; subst; cbn.
  - rewrite (Hs eq_refl). reflexivity.
  - rewrite (Hc eq_refl). reflexivity.
Qed.

(** X15.  Whatever the order of calls and settlements, the module's
    variables are in one of three shapes: idle (no instance, no promise),
    initialising (no instance, a pending promise, with [isSDKInitialized]
    telling which SDK call is awaited), or ready (an instance and the
    promise fulfilled with that same instance).  A failure returns the
    module to idle, from where the next call starts again: when the
    awaited [initSDK] rejects, the promise is dropped, nothing else
    changes, and the next [initializeFHE] calls [initSDK] again; when the
    awaited [createInstance] rejects, the promise is dropped, the SDK
    stays initialised, and the next [initializeFHE] calls
    [createInstance] only. *)
Theorem sdk_shape (evs : list Event) :
  FheSdk.Shape Instance (FheSdk.run Instance Err evs (FheSdk.loaded Instance)) /\
  (forall e : Err,
      FheSdk.initPromise Instance (FheSdk.run Instance Err evs (FheSdk.loaded Instance))
        = Some (FheSdk.Pending Instance FheSdk.AwaitInitSDK) ->
      FheSdk.run Instance Err (evs ++ [FheSdk.InitSDK_rejects Instance Err e])
        (FheSdk.loaded Instance)
        = FheSdk.mkSdkState Instance None None false
            (FheSdk.sdk_calls Instance
               (FheSdk.run Instance Err evs (FheSdk.loaded Instance))) /\
      FheSdk.run Instance Err
        (evs ++ [FheSdk.InitSDK_rejects Instance Err e;
                 FheSdk.Call_initializeFHE Instance Err])
        (FheSdk.loaded Instance)
        = FheSdk.mkSdkState Instance None
            (Some (FheSdk.Pending Instance FheSdk.AwaitInitSDK)) false
            (FheSdk.sdk_calls Instance
               (FheSdk.run Instance Err evs (FheSdk.loaded Instance))
             ++ [FheSdk.InitSDK])) /\
  (forall e : Err,
      FheSdk.initPromise Instance (FheSdk.run Instance Err evs (FheSdk.loaded Instance))
        = Some (FheSdk.Pending Instance FheSdk.AwaitCreateInstance) ->
      FheSdk.run Instance Err (evs ++ [FheSdk.CreateInstance_rejects Instance Err e])
        (FheSdk.loaded Instance)
        = FheSdk.mkSdkState Instance None None true
            (FheSdk.sdk_calls Instance
               (FheSdk.run Instance Err evs (FheSdk.loaded Instance))) /\
      FheSdk.run Instance Err
        (evs ++ [FheSdk.CreateInstance_rejects Instance Err e;
                 FheSdk.Call_initializeFHE Instance Err])
        (FheSdk.loaded Instance)
        = FheSdk.mkSdkState Instance None
            (Some (FheSdk.Pending Instance FheSdk.AwaitCreateInstance)) true
            (FheSdk.sdk_calls Instance
               (FheSdk.run Instance Err evs (FheSdk.loaded Instance))
             ++ [FheSdk.CreateInstance])).
Proof.
  pose proof (sdk_shape_loaded evs) as Hshape.
  split; [exact Hshape | ].
  split; intros e Hp; rewrite !sdk_run_app;
    set (s := FheSdk.run Instance Err evs (FheSdk.loaded Instance)) in *;
    destruct (sdk_failure_step s e Hshape) as [H1 H2];
    unfold FheSdk.run; cbn [foldl].
  - rewrite (H1 Hp). split; reflexivity.
  - rewrite (H2 Hp). split; reflexivity.
Qed.

Lemma sdk_ready_step (s : SdkState) (i : Instance) (ev : Event) :
  FheSdk.Shape Instance s -> FheSdk.fheInstance Instance s = Some i ->
  FheSdk.step Instance Err s ev = s.
Proof.
  intros [Hi Hp | ph Hi Hp Hc Hs | i' Hi Hp Hf] Hsome; try congruence.
  destruct s as [inst prom flag calls]; cbn in *; subst.
  destruct ev; reflexivity.
Qed.

(** X16.  Singleton: once an instance exists, no later call of
    [initializeFHE] and no settlement changes anything, so the instance is
    never replaced and no SDK function is called again. *)
Theorem sdk_singleton (evs evs' : list Event) (i : Instance) :
  FheSdk.getFHEInstance Instance (FheSdk.run Instance Err evs (FheSdk.loaded Instance))
    = Some i ->
  FheSdk.run Instance Err (evs ++ evs') (FheSdk.loaded Instance)
    = FheSdk.run Instance Err evs (FheSdk.loaded Instance).
Proof.
  intros Hi. rewrite sdk_run_app.
  pose proof (sdk_shape_loaded evs) as Hshape.
  set (s := FheSdk.run Instance Err evs (FheSdk.loaded Instance)) in *.
  clearbody s. induction evs' as [ | ev evs' IH]; [reflexivity | ].
  cbn. rewrite (sdk_ready_step s i ev Hshape Hi). exact IH.
Qed.

Lemma sdk_flag_step (s : SdkState) (ev : Event) :
  FheSdk.Shape Instance s -> FheSdk.isSDKInitialized Instance s = true ->
  FheSdk.isSDKInitialized Instance (FheSdk.step Instance Err s ev) = true /\
  FheSdk.initSDK_calls Instance (FheSdk.step Instance Err s ev)
    = FheSdk.initSDK_calls Instance s.
Proof.
  intros [Hi Hp | ph Hi Hp Hc Hs | i Hi Hp Hf] Hflag;
    destruct s as [inst prom flag calls]; cbn in *; subst.
  - destruct ev; cbn; auto.
    unfold FheSdk.initSDK_calls; cbn. rewrite filter_app, length_app. cbn. auto with lia.
  - destruct ph; [specialize (Hs eq_refl); discriminate | ].
    destruct ev; cbn; auto.
  - destruct ev; cbn; auto.
Qed.

(** X17.  [initSDK] succeeds at most once: once [isSDKInitialized] is
    set, it stays set and [initSDK] is never called again, whatever calls
    and failures of [createInstance] follow. *)
Theorem initSDK_once (evs evs' : list Event) :
  FheSdk.isSDKInitialized Instance
    (FheSdk.run Instance Err evs (FheSdk.loaded Instance)) = true ->
  FheSdk.isSDKInitialized Instance
    (FheSdk.run Instance Err (evs ++ evs') (FheSdk.loaded Instance)) = true /\
  FheSdk.initSDK_calls Instance
    (FheSdk.run Instance Err (evs ++ evs') (FheSdk.loaded Instance))
    = FheSdk.initSDK_calls Instance
        (FheSdk.run Instance Err evs (FheSdk.loaded Instance)).
Proof.
  intros Hflag. rewrite sdk_run_app.
  pose proof (sdk_shape_loaded evs) as Hshape.
  set (s := FheSdk.run Instance Err evs (FheSdk.loaded Instance)) in *.
  clearbody s. revert s Hflag Hshape.
  induction evs' as [ | ev evs' IH]; intros s Hflag Hshape; [auto | ].
  cbn. destruct (sdk_flag_step s ev Hshape Hflag) as [Hflag' Hcalls].
  destruct (IH _ Hflag' (sdk_shape_step s ev Hshape)) as [IH1 IH2].
  split; [exact IH1 | ]. unfold FheSdk.run in IH2. rewrite IH2. exact Hcalls.
Qed.

End SdkProofs.

Lemma sdk_shape_witness :
  FheSdk.initPromise Z
    (FheSdk.run Z Z [FheSdk.Call_initializeFHE Z Z; FheSdk.InitSDK_resolves Z Z]
       (FheSdk.loaded Z))
    = Some (FheSdk.Pending Z FheSdk.AwaitCreateInstance) /\
  FheSdk.run Z Z
    ([FheSdk.Call_initializeFHE Z Z; FheSdk.InitSDK_resolves Z Z]
     ++ [FheSdk.CreateInstance_rejects Z Z 1]) (FheSdk.loaded Z)
    = FheSdk.mkSdkState Z None None true
        (FheSdk.sdk_calls Z
           (FheSdk.run Z Z [FheSdk.Call_initializeFHE Z Z; FheSdk.InitSDK_resolves Z Z]
              (FheSdk.loaded Z))) /\
  FheSdk.run Z Z
    ([FheSdk.Call_initializeFHE Z Z; FheSdk.InitSDK_resolves Z Z]
     ++ [FheSdk.CreateInstance_rejects Z Z 1; FheSdk.Call_initializeFHE Z Z])
    (FheSdk.loaded Z)
    = FheSdk.mkSdkState Z None (Some (FheSdk.Pending Z FheSdk.AwaitCreateInstance)) true
        (FheSdk.sdk_calls Z
           (FheSdk.run Z Z [FheSdk.Call_initializeFHE Z Z; FheSdk.InitSDK_resolves Z Z]
              (FheSdk.loaded Z))
         ++ [FheSdk.CreateInstance]).
Proof.
  assert (H1 : FheSdk.initPromise Z
                 (FheSdk.run Z Z
                    [FheSdk.Call_initializeFHE Z Z; FheSdk.InitSDK_resolves Z Z]
                    (FheSdk.loaded Z))
               = Some (FheSdk.Pending Z FheSdk.AwaitCreateInstance))
    by reflexivity.
  split; [exact H1 | ].
  exact (proj2 (proj2 (sdk_shape Z Z
                         [FheSdk.Call_initializeFHE Z Z; FheSdk.InitSDK_resolves Z Z]))
           1 H1).
Defined.

Lemma sdk_singleton_witness :
  FheSdk.getFHEInstance Z
    (FheSdk.run Z Z
       [FheSdk.Call_initializeFHE Z Z; FheSdk.InitSDK_resolves Z Z;
        FheSdk.CreateInstance_resolves Z Z 7] (FheSdk.loaded Z)) = Some 7 /\
  FheSdk.run Z Z
    ([FheSdk.Call_initializeFHE Z Z; FheSdk.InitSDK_resolves Z Z;
      FheSdk.CreateInstance_resolves Z Z 7]
     ++ [FheSdk.Call_initializeFHE Z Z; FheSdk.CreateInstance_resolves Z Z 8])
    (FheSdk.loaded Z)
  = FheSdk.run Z Z
      [FheSdk.Call_initializeFHE Z Z; FheSdk.InitSDK_resolves Z Z;
       FheSdk.CreateInstance_resolves Z Z 7] (FheSdk.loaded Z).
Proof.
  assert (H1 : FheSdk.getFHEInstance Z
                 (FheSdk.run Z Z
                    [FheSdk.Call_initializeFHE Z Z; FheSdk.InitSDK_resolves Z Z;
                     FheSdk.CreateInstance_resolves Z Z 7] (FheSdk.loaded Z)) = Some 7)
    by reflexivity.
  split; [exact H1 | ].
  exact (sdk_singleton Z Z _ _ 7 H1).
Defined.

Lemma initSDK_once_witness :
  FheSdk.isSDKInitialized Z
    (FheSdk.run Z Z
       [FheSdk.Call_initializeFHE Z Z; FheSdk.InitSDK_resolves Z Z;
        FheSdk.CreateInstance_rejects Z Z 1] (FheSdk.loaded Z)) = true /\
  FheSdk.initSDK_calls Z
    (FheSdk.run Z Z
       ([FheSdk.Call_initializeFHE Z Z; FheSdk.InitSDK_resolves Z Z;
         FheSdk.CreateInstance_rejects Z Z 1]
        ++ [FheSdk.Call_initializeFHE Z Z; FheSdk.CreateInstance_resolves Z Z 7])
       (FheSdk.loaded Z))
  = FheSdk.initSDK_calls Z
      (FheSdk.run Z Z
         [FheSdk.Call_initializeFHE Z Z; FheSdk.InitSDK_resolves Z Z;
          FheSdk.CreateInstance_rejects Z Z 1] (FheSdk.loaded Z)).
Proof.
  assert (H1 : FheSdk.isSDKInitialized Z
                 (FheSdk.run Z Z
                    [FheSdk.Call_initializeFHE Z Z; FheSdk.InitSDK_resolves Z Z;
                     FheSdk.CreateInstance_rejects Z Z 1] (FheSdk.loaded Z)) = true)
    by reflexivity.
  split; [exact H1 | ].
  exact (proj2 (initSDK_once Z Z _ _ H1)).
Defined.

(** * The fetch-retry shim *)

Lemma isPositiveInteger_iff (value : Q) :
  FetchRetry.isPositiveInteger value = true <->
  exists n : Z, 0 <= n /\ (value == inject_Z n)%Q.
Proof.
  unfold FetchRetry.isPositiveInteger. rewrite andb_true_iff, Qeq_bool_iff, Qle_bool_iff.
  split.
  - intros [Hint Hpos]. exists (Qfloor value). split; [ | exact Hint].
    change 0 with (Qfloor (inject_Z 0)) at 1. rewrite Qfloor_Z.
    change 0 with (Qfloor 0%Q). apply Qfloor_resp_le. exact Hpos.
  - intros (n & Hn & Heq). split.
    + rewrite Heq at 2. rewrite Qfloor_Z. exact Heq.
    + rewrite Heq. change 0%Q with (inject_Z 0). rewrite <- Zle_Qle. exact Hn.
Qed.

Lemma seqZ_first (first last : Z) :
  first <= last ->
  seqZ first (last - first + 1) = first :: seqZ (first + 1) (last - (first + 1) + 1).
Proof.
  intros Hle. rewrite seqZ_cons by lia. f_equal. f_equal; lia.
Qed.

Section ShimProofs.

Variable Response : Type.
Variable status : Response -> Z.
Variable Err : Type.

Local Abbreviation Options := (@FetchRetry.Options Response Err).

(** X18.  [validateOptions] accepts an options object exactly when
    [retries], if given, is an integer [>= 0] and [retryDelay], if given
    as a number, is an integer [>= 0]: zero passes both checks, a negative
    or fractional number fails, a [retryDelay] function always passes, and
    [retryOn] of the declared type is never rejected. *)
Theorem validateOptions_accepts (options : Options) :
  FetchRetry.validateOptions options = None <->
  (forall value : Q,
      FetchRetry.read (FetchRetry.retries options) = Some value ->
      exists n : Z, 0 <= n /\ (value == inject_Z n)%Q) /\
  (forall value : Q,
      FetchRetry.read (FetchRetry.retryDelay options) = Some (inl value) ->
      exists n : Z, 0 <= n /\ (value == inject_Z n)%Q).
Proof.
  unfold FetchRetry.validateOptions.
  destruct (FetchRetry.read (FetchRetry.retries options)) as [r | ];
    destruct (FetchRetry.read (FetchRetry.retryDelay options)) as [[d | f] | ];
    destruct (FetchRetry.read (FetchRetry.retryOn options)) as [[l | g] | ];
    try destruct (FetchRetry.isPositiveInteger r) eqn:Hr;
    try destruct (FetchRetry.isPositiveInteger d) eqn:Hd;
    cbn [negb];
    try apply isPositiveInteger_iff in Hr;
    try apply isPositiveInteger_iff in Hd;
    (split;
     [ intros Hok; try discriminate Hok;
       split; intros value [= <-]; assumption
     | intros [H1 H2]; try reflexivity;
       exfalso;
       first [ specialize (H1 _ eq_refl); apply isPositiveInteger_iff in H1; congruence
             | specialize (H2 _ eq_refl); apply isPositiveInteger_iff in H2; congruence ] ]).
Qed.

Section LoopProofs.

Variable fetchImpl : Z -> Response + Err.
Variable the_retries : option Q.
Variable the_retryDelay : option (Q + FetchRetry.RetryDelayFn Response Err).
Variable the_retryOn : option (list Q + FetchRetry.RetryOnFn Response Err).

Local Abbreviation loop :=
  (FetchRetry.wrappedFetch status fetchImpl the_retries the_retryDelay the_retryOn).
Local Abbreviation after_fetch :=
  (FetchRetry.after_fetch status fetchImpl the_retries the_retryDelay the_retryOn).
Local Abbreviation retry := (FetchRetry.retry the_retryDelay).

Lemma wrappedFetch_unfold (attempt : Z) :
  loop attempt
  = match after_fetch attempt with
    | FetchRetry.Ended result => (FetchRetry.Settles result, [FetchRetry.Fetched attempt])
    | FetchRetry.Threw _ => (FetchRetry.Unsettled, [FetchRetry.Fetched attempt])
    | FetchRetry.Timed delay =>
        if Z_lt_dec attempt FetchRetry.absorbing
        then ((loop (attempt + 1)).1,
              FetchRetry.Fetched attempt :: FetchRetry.Timer delay
              :: (loop (attempt + 1)).2)
        else (FetchRetry.CounterStuck,
              [FetchRetry.Fetched attempt; FetchRetry.Timer delay])
    end.
Proof.
  funelim (FetchRetry.wrappedFetch status fetchImpl the_retries the_retryDelay
             the_retryOn attempt).
  all: repeat match goal with
              | H : FetchRetry.after_fetch _ _ _ _ _ _ = _ |- _ => rewrite H
              | H : Z_lt_dec _ _ = _ |- _ => rewrite H
              end; reflexivity.
Qed.

Lemma below_retries_integer (n attempt : Z) :
  the_retries = Some (inject_Z n) ->
  FetchRetry.below_retries the_retries attempt = bool_decide (attempt < n).
Proof.
  intros ->. unfold FetchRetry.below_retries.
  destruct (Qle_bool (inject_Z n) (inject_Z attempt)) eqn:Hle; cbn [negb]; symmetry.
  - apply Qle_bool_iff in Hle. rewrite <- Zle_Qle in Hle.
    apply bool_decide_eq_false. lia.
  - apply bool_decide_eq_true.
    destruct (Z_lt_le_dec attempt n) as [Hlt | Hge]; [exact Hlt | ].
    rewrite Zle_Qle in Hge. apply Qle_bool_iff in Hge. congruence.
Qed.

(** Without [attempt < retries] neither handler calls [retry]: the promise
    is settled. *)
Lemma after_fetch_last (attempt : Z) :
  FetchRetry.below_retries the_retries attempt = false ->
  exists result : FetchRetry.Settled Response Err,
    after_fetch attempt = FetchRetry.Ended result.
Proof.
  intros Hbelow.
  unfold FetchRetry.after_fetch, FetchRetry.then_handler, FetchRetry.catch_handler.
  rewrite Hbelow.
  destruct (fetchImpl attempt) as [r | e];
    destruct the_retryOn as [[statuses | f] | ]; rewrite ?andb_false_r; eauto.
  - destruct (f attempt None (Some r)) as [e' | b]; rewrite ?andb_false_r; eauto.
  - destruct (f attempt (Some e) None) as [e' | b]; rewrite ?andb_false_r; eauto.
Qed.






Lemma statuses_outcome_from (n last : Z) (statuses : list Q) (gap : nat) :
  forall attempt : Z,
  the_retries = Some (inject_Z n) -> n <= FetchRetry.absorbing ->
  the_retryOn = Some (inl statuses) ->
  (forall (j : Z) (error : option Err) (response : option Response),
      attempt <= j < last -> exists delay : option Q, retry j error response = inr delay) ->
  attempt <= last <= n -> Z.to_nat (last - attempt) = gap ->
  (forall j : Z, attempt <= j < last ->
                 FetchRetry.retriable status fetchImpl statuses j = true) ->
  (last = n \/ FetchRetry.retriable status fetchImpl statuses last = false) ->
  (loop attempt).1 = FetchRetry.Settles (FetchRetry.passed_on (fetchImpl last)) /\
  FetchRetry.fetches (loop attempt).2 = seqZ attempt (last - attempt + 1).
Proof.
  induction gap as [ | gap IH];
    intros attempt Hn Hmax Hon Hdelay Hrange Hgap Hbefore Hlast.
  - assert (attempt = last) by lia. subst attempt.
    assert (Hnext : after_fetch last
                    = FetchRetry.Ended (FetchRetry.passed_on (fetchImpl last))).
    { unfold FetchRetry.after_fetch, FetchRetry.then_handler, FetchRetry.catch_handler.
      rewrite Hon, (below_retries_integer n last Hn).
      unfold FetchRetry.retriable in Hlast.
      destruct (fetchImpl last) as [r | e].
      - destruct Hlast as [-> | Hno].
        + rewrite bool_decide_eq_false_2 by lia. rewrite andb_false_r. reflexivity.
        + rewrite Hno. reflexivity.
      - destruct Hlast as [-> | Hno]; [ | discriminate Hno].
        rewrite bool_decide_eq_false_2 by lia. reflexivity. }
    rewrite wrappedFetch_unfold, Hnext.
    replace (last - last + 1) with 1 by lia. split; reflexivity.
  - assert (Hlt : attempt < last) by lia.
    assert (Hnext : exists delay : option Q, after_fetch attempt = FetchRetry.Timed delay).
    { pose proof (Hbefore attempt ltac:(lia)) as Hthis.
      unfold FetchRetry.retriable in Hthis.
      unfold FetchRetry.after_fetch, FetchRetry.then_handler, FetchRetry.catch_handler.
      rewrite Hon, (below_retries_integer n attempt Hn).
      rewrite bool_decide_eq_true_2 by lia.
      destruct (fetchImpl attempt) as [r | e].
      - rewrite Hthis. cbn [andb].
        destruct (Hdelay attempt None (Some r) ltac:(lia)) as [delay ->]. eauto.
      - destruct (Hdelay attempt (Some e) None ltac:(lia)) as [delay ->]. eauto. }
    destruct Hnext as [delay Hnext].
    rewrite wrappedFetch_unfold, Hnext.
    destruct (Z_lt_dec attempt FetchRetry.absorbing) as [_ | Hstuck]; [ | lia].
    destruct (IH (attempt + 1) Hn Hmax Hon
                 ltac:(intros j error response Hj; apply Hdelay; lia)
                 ltac:(lia) ltac:(lia)
                 ltac:(intros j Hj; apply Hbefore; lia) Hlast) as [Hres Hf].
    cbn [fst snd FetchRetry.fetches omap list_omap].
    fold (FetchRetry.fetches (loop (attempt + 1)).2).
    rewrite Hf, (seqZ_first attempt last) by lia.
    split; [exact Hres | reflexivity].
Qed.

(** X20.  With [retryOn] an array of statuses, [retries] an integer [n]
    from 0 to 2^53 and a [retryDelay] that does not throw before attempt
    [last], the promise settles with the outcome of attempt [last], passed
    on unchanged, where [last] is the first attempt that is a response
    with an unlisted status, or [n] if every attempt before it is an error
    or a listed status; exactly [last + 1] fetches are made.  So an error is
    retried until attempt [n] and then rejects with the last error, and a
    listed status still resolves with the last response once the retries
    are used up. *)
Theorem statuses_outcome (n last : Z) (statuses : list Q) :
  the_retries = Some (inject_Z n) ->
  n <= FetchRetry.absorbing ->
  the_retryOn = Some (inl statuses) ->
  (forall (j : Z) (error : option Err) (response : option Response),
      0 <= j < last -> exists delay : option Q, retry j error response = inr delay) ->
  0 <= last <= n ->
  (forall j : Z, 0 <= j < last ->
                 FetchRetry.retriable status fetchImpl statuses j = true) ->
  (last = n \/ FetchRetry.retriable status fetchImpl statuses last = false) ->
  (loop 0).1 = FetchRetry.Settles (FetchRetry.passed_on (fetchImpl last)) /\
  FetchRetry.fetches (loop 0).2 = seqZ 0 (last + 1).
Proof.
  intros Hn Hmax Hon Hdelay Hrange Hbefore Hlast.
  destruct (statuses_outcome_from n last statuses (Z.to_nat (last - 0)) 0
              Hn Hmax Hon Hdelay Hrange eq_refl Hbefore Hlast) as [Hres Hf].
  replace (last - 0 + 1) with (last + 1) in Hf by lia. auto.
Qed.

End LoopProofs.

(** X21.  A [retries] property that is present in [defaults] with the
    value [undefined] replaces the base default of 3: unless the call
    gives [retries] itself, [attempt < retries] is never true and exactly
    one fetch is made, whatever its outcome. *)
Theorem undefined_retries_default (fetchImpl : Z -> Response + Err)
        (defaults init : Options) :
  FetchRetry.retries defaults = FetchRetry.Undefined ->
  FetchRetry.read (FetchRetry.retries init) = None ->
  FetchRetry.validateOptions defaults = None ->
  FetchRetry.validateOptions init = None ->
  exists result : FetchRetry.Settled Response Err,
    FetchRetry.createFetchRetry status fetchImpl defaults init
      = inr (FetchRetry.Settles result, [FetchRetry.Fetched 0]).
Proof.
  intros Hdef Hinit Hvd Hvi. unfold FetchRetry.createFetchRetry.
  rewrite Hvd, Hvi. unfold FetchRetry.merge. rewrite Hdef, Hinit.
  cbn [FetchRetry.spread FetchRetry.retries FetchRetry.read FetchRetry.nullish].
  rewrite wrappedFetch_unfold.
  match goal with
  | |- context [FetchRetry.after_fetch status fetchImpl None ?delay ?on 0] =>
      destruct (after_fetch_last fetchImpl None delay on 0 eq_refl) as [result ->]
  end.
  eauto.
Qed.

End ShimProofs.

(** With [retryOn] an array, what [retryDelay] throws in the [then]
    handler reaches the [catch] handler, which calls [retry] again, now
    with the thrown value as the error. *)
Example then_throw_reaches_catch :
  FetchRetry.after_fetch (fun r : Z => r) FetchRetry.flaky (Some (inject_Z 3))
    (Some (inr FetchRetry.moody)) (Some (inl [503%Q])) 2
  = FetchRetry.Timed (Some (inject_Z 99)).
Proof. reflexivity. Qed.

(** With [retryOn] an array, a [retryDelay] that throws in the [catch]
    handler leaves the promise pending after a single fetch. *)
Example catch_throw_unsettled :
  FetchRetry.wrappedFetch (fun r : Z => r) FetchRetry.flaky (Some (inject_Z 3))
    (Some (inr FetchRetry.sulky)) (Some (inl [])) 0
  = (FetchRetry.Unsettled, [FetchRetry.Fetched 0]).
Proof. rewrite wrappedFetch_unfold. reflexivity. Qed.

(** With [retryOn] a function the call of [retry] is guarded: the same
    [retryDelay] makes the promise reject. *)
Example guarded_throw_rejects :
  FetchRetry.wrappedFetch (fun r : Z => r) FetchRetry.flaky (Some (inject_Z 3))
    (Some (inr FetchRetry.sulky)) (Some (inr (fun _ _ _ => inr true))) 0
  = (FetchRetry.Settles (FetchRetry.Rejected (FetchRetry.Raised 99)),
     [FetchRetry.Fetched 0]).
Proof. rewrite wrappedFetch_unfold. reflexivity. Qed.

Lemma validateOptions_accepts_witness :
  FetchRetry.validateOptions
    (FetchRetry.mkOptions (Response := Z) (Err := Z)
       (FetchRetry.Given 0%Q) (FetchRetry.Given (inl 0%Q)) FetchRetry.Undefined) = None.
Proof.
  apply (proj2 (validateOptions_accepts Z Z
                  (FetchRetry.mkOptions (FetchRetry.Given 0%Q)
                     (FetchRetry.Given (inl 0%Q)) FetchRetry.Undefined))).
  split; intros value [= <-]; exists 0; split; [lia | reflexivity | lia | reflexivity].
Defined.


Lemma statuses_outcome_witness :
  (Some (inject_Z 3) = Some (inject_Z 3) /\ 3 <= FetchRetry.absorbing /\
   (forall (j : Z) (error : option Z) (response : option Z),
       0 <= j < 2 ->
       exists delay : option Q,
         FetchRetry.retry (Some (inl 1000%Q)) j error response = inr delay) /\
   0 <= 2 <= 3 /\
   (forall j : Z, 0 <= j < 2 ->
                  FetchRetry.retriable (fun r : Z => r) FetchRetry.flaky [] j = true) /\
   (2 = 3 \/ FetchRetry.retriable (fun r : Z => r) FetchRetry.flaky [] 2 = false)) /\
  (FetchRetry.wrappedFetch (fun r : Z => r) FetchRetry.flaky (Some (inject_Z 3))
     (Some (inl 1000%Q)) (Some (inl [])) 0).1
    = FetchRetry.Settles (FetchRetry.passed_on (FetchRetry.flaky 2)) /\
  FetchRetry.fetches
    (FetchRetry.wrappedFetch (fun r : Z => r) FetchRetry.flaky (Some (inject_Z 3))
       (Some (inl 1000%Q)) (Some (inl [])) 0).2 = seqZ 0 (2 + 1).
Proof.
  assert (H1 : Some (inject_Z 3) = Some (inject_Z 3)) by reflexivity.
  assert (H0 : 3 <= FetchRetry.absorbing) by (unfold FetchRetry.absorbing; lia).
  assert (Hd : forall (j : Z) (error : option Z) (response : option Z),
                 0 <= j < 2 ->
                 exists delay : option Q,
                   FetchRetry.retry (Some (inl 1000%Q)) j error response = inr delay)
    by (intros j error response _; eexists; reflexivity).
  assert (H2 : 0 <= 2 <= 3) by lia.
  assert (H3 : forall j : Z, 0 <= j < 2 ->
                 FetchRetry.retriable (fun r : Z => r) FetchRetry.flaky [] j = true).
  { intros j Hj. assert (Hcases : j = 0 \/ j = 1) by lia.
    destruct Hcases as [-> | ->]; reflexivity. }
  assert (H4 : 2 = 3 \/ FetchRetry.retriable (fun r : Z => r) FetchRetry.flaky [] 2 = false)
    by (right; reflexivity).
  split; [auto 10 | ].
  exact (statuses_outcome Z (fun r : Z => r) Z FetchRetry.flaky (Some (inject_Z 3))
           (Some (inl 1000%Q)) (Some (inl [])) 3 2 [] H1 H0 eq_refl Hd H2 H3 H4).
Defined.

Lemma undefined_retries_default_witness :
  (FetchRetry.retries (FetchRetry.mkOptions (Response := Z) (Err := Z)
                         FetchRetry.Undefined FetchRetry.Absent FetchRetry.Absent)
     = FetchRetry.Undefined /\
   FetchRetry.read (FetchRetry.retries FetchRetry.no_options) = None /\
   FetchRetry.validateOptions
     (FetchRetry.mkOptions (Response := Z) (Err := Z)
        FetchRetry.Undefined FetchRetry.Absent FetchRetry.Absent) = None /\
   FetchRetry.validateOptions FetchRetry.no_options = None) /\
  exists result : FetchRetry.Settled Z Z,
    FetchRetry.createFetchRetry (fun r : Z => r) FetchRetry.flaky
      (FetchRetry.mkOptions FetchRetry.Undefined FetchRetry.Absent FetchRetry.Absent)
      FetchRetry.no_options
    = inr (FetchRetry.Settles result, [FetchRetry.Fetched 0]).
Proof.
  split; [repeat split | ].
  exact (undefined_retries_default Z (fun r : Z => r) Z FetchRetry.flaky
           (FetchRetry.mkOptions FetchRetry.Undefined FetchRetry.Absent FetchRetry.Absent)
           FetchRetry.no_options eq_refl eq_refl eq_refl eq_refl).
Defined.
